(** * Viking Settlement Tycoon multiplayer client (src/game.js)

    A shallow embedding of the client's core: the coordinate mapper, the
    chunk cache, the per-chunk fog-of-war masks with their reveal
    animations, the reconnect policy and the handlers of the server events.

    Conventions of the embedding.
    - JavaScript numbers that are counters, chunk coordinates or millisecond
      timestamps are [Z]; world coordinates, radii and opacities are exact
      rationals [Q] (finite numbers only; rounding of doubles is not
      modelled).
    - A JS [Map] keyed by strings is a [gmap string _].
    - A fog canvas is its alpha channel, one opacity per pixel; a fill is
      sampled at the centre of each pixel and composited exactly.
    - Methods that mutate [this] take the game state and return the new
      state; what a method sends to the socket, shows to the user or hands
      to [setTimeout] is returned as a list of [Effect]s, in program order. *)

From Stdlib Require Import ZArith QArith Qround Qminmax Lia Lra Psatz List.
From stdpp Require Import base option list gmap fin_maps strings pretty.

#[local] Set Warnings "-clear-no-such-hyp".

Local Open Scope string_scope.
Local Open Scope list_scope.
Local Open Scope Z_scope.

(** ** Data model *)

Record Camera := mkCamera { cam_x : Q; cam_y : Q; cam_scale : Q }.

Record Resources := mkResources { food : Q; wood : Q; iron : Q; gold : Q }.

Record Scout := mkScout {
  scout_id : Z; scout_x : Q; scout_y : Q;
  scout_exploring : bool; scout_target : option (Q * Q) }.

Record Building := mkBuilding {
  building_name : string; building_type : string;
  building_x : Q; building_y : Q }.

(** A delivered chunk: its chunk coordinates and its world-space origin.
    The terrain layers are opaque to every function modelled here. *)
Record Chunk := mkChunk {
  chunk_x : Z; chunk_y : Z; chunk_worldX : Q; chunk_worldY : Q }.

(** The alpha channel of a fog canvas: opacity of the pixel in column [px],
    row [py].  The canvas is [chunkSize] wide and high; drawing outside it is
    clipped. *)
Definition Canvas := Z -> Z -> Q.

(** An entry of [revealAnimations]. *)
Record Anim := mkAnim {
  anim_x : Q; anim_y : Q;
  anim_radius : Q; anim_targetRadius : Q;
  anim_startTime : Z; anim_duration : Z;
  anim_chunkX : Z; anim_chunkY : Z }.

(** What the client sends with [socket.emit]. *)
Inductive Outbound :=
| join_world (worldId : option string)
| update_camera (camera : Camera)
| place_building (buildingType : option string) (x y : Q)
| send_scout (targetX targetY : Q)
| request_chunks (chunkCoords : list (Z * Z))
| save_fog_of_war (fogOfWarData : list (string * Canvas)).

(** What a [setTimeout] callback does when it fires. *)
Inductive TimerAction := ReconnectTimer | ThrottleRelease.

Inductive Effect :=
| Emit (o : Outbound)
| ShowNotification (message type : string)
| SetTimeout (action : TimerAction) (delay : Z).

(** The fields of [VikingSettlementTycoon] that the core reads or writes.
    [socket] is [None] for [null] and [Some id] for a socket whose [id] is
    [id]; [inThrottle] is the variable captured by the closure that
    [throttle] returns for [throttledCameraUpdate]. *)
Record Game := mkGame {
  socket : option string;
  isConnected : bool;
  reconnectAttempts : Z;
  maxReconnectAttempts : Z;
  camera : Camera;
  canvasWidth : Q;
  canvasHeight : Q;
  resources : Resources;
  population : Z;
  buildings : list Building;
  scouts : list Scout;
  selectedBuilding : option string;
  chunkSize : Z;
  chunkLoadRadius : Z;
  loadedChunks : gmap string Chunk;
  fogOfWar : gmap string Canvas;
  revealAnimations : list Anim;
  inThrottle : bool }.

Definition set_isConnected (b : bool) (g : Game) : Game :=
  mkGame (socket g) b (reconnectAttempts g)
    (maxReconnectAttempts g) (camera g) (canvasWidth g) (canvasHeight g)
    (resources g) (population g) (buildings g) (scouts g)
    (selectedBuilding g) (chunkSize g) (chunkLoadRadius g) (loadedChunks g)
    (fogOfWar g) (revealAnimations g) (inThrottle g).

Definition set_reconnectAttempts (n : Z) (g : Game) : Game :=
  mkGame (socket g) (isConnected g) n (maxReconnectAttempts g) (camera g)
    (canvasWidth g) (canvasHeight g) (resources g) (population g)
    (buildings g) (scouts g) (selectedBuilding g) (chunkSize g)
    (chunkLoadRadius g) (loadedChunks g) (fogOfWar g) (revealAnimations g)
    (inThrottle g).

Definition set_resources (r : Resources) (g : Game) : Game :=
  mkGame (socket g) (isConnected g) (reconnectAttempts g)
    (maxReconnectAttempts g) (camera g) (canvasWidth g) (canvasHeight g)
    r (population g) (buildings g) (scouts g) (selectedBuilding g)
    (chunkSize g) (chunkLoadRadius g) (loadedChunks g) (fogOfWar g)
    (revealAnimations g) (inThrottle g).

Definition set_population (p : Z) (g : Game) : Game :=
  mkGame (socket g) (isConnected g) (reconnectAttempts g)
    (maxReconnectAttempts g) (camera g) (canvasWidth g) (canvasHeight g)
    (resources g) p (buildings g) (scouts g) (selectedBuilding g)
    (chunkSize g) (chunkLoadRadius g) (loadedChunks g) (fogOfWar g)
    (revealAnimations g) (inThrottle g).

Definition set_scouts (s : list Scout) (g : Game) : Game :=
  mkGame (socket g) (isConnected g) (reconnectAttempts g)
    (maxReconnectAttempts g) (camera g) (canvasWidth g) (canvasHeight g)
    (resources g) (population g) (buildings g) s (selectedBuilding g)
    (chunkSize g) (chunkLoadRadius g) (loadedChunks g) (fogOfWar g)
    (revealAnimations g) (inThrottle g).

Definition set_loadedChunks (m : gmap string Chunk) (g : Game) : Game :=
  mkGame (socket g) (isConnected g) (reconnectAttempts g)
    (maxReconnectAttempts g) (camera g) (canvasWidth g) (canvasHeight g)
    (resources g) (population g) (buildings g) (scouts g)
    (selectedBuilding g) (chunkSize g) (chunkLoadRadius g) m (fogOfWar g)
    (revealAnimations g) (inThrottle g).

Definition set_fogOfWar (m : gmap string Canvas) (g : Game) : Game :=
  mkGame (socket g) (isConnected g) (reconnectAttempts g)
    (maxReconnectAttempts g) (camera g) (canvasWidth g) (canvasHeight g)
    (resources g) (population g) (buildings g) (scouts g)
    (selectedBuilding g) (chunkSize g) (chunkLoadRadius g) (loadedChunks g)
    m (revealAnimations g) (inThrottle g).

Definition set_revealAnimations (l : list Anim) (g : Game) : Game :=
  mkGame (socket g) (isConnected g) (reconnectAttempts g)
    (maxReconnectAttempts g) (camera g) (canvasWidth g) (canvasHeight g)
    (resources g) (population g) (buildings g) (scouts g)
    (selectedBuilding g) (chunkSize g) (chunkLoadRadius g) (loadedChunks g)
    (fogOfWar g) l (inThrottle g).

Definition set_inThrottle (b : bool) (g : Game) : Game :=
  mkGame (socket g) (isConnected g) (reconnectAttempts g)
    (maxReconnectAttempts g) (camera g) (canvasWidth g) (canvasHeight g)
    (resources g) (population g) (buildings g) (scouts g)
    (selectedBuilding g) (chunkSize g) (chunkLoadRadius g) (loadedChunks g)
    (fogOfWar g) (revealAnimations g) b.

(** The test [this.socket && this.isConnected] that guards every emit. *)
Definition connected (g : Game) : bool :=
  match socket g with
  | Some _ => isConnected g
  | None => false
  end.

(** ** Coordinate mapper *)

(** [getChunkCoords]: [Math.floor] of the quotient on each axis. *)
Definition getChunkCoords (g : Game) (worldX worldY : Q) : Z * Z :=
  (Qfloor (worldX / inject_Z (chunkSize g)),
   Qfloor (worldY / inject_Z (chunkSize g))).

(** [getChunkKey]: the template string [`${chunkX},${chunkY}`]. *)
Definition getChunkKey (chunkX chunkY : Z) : string :=
  pretty chunkX +:+ "," +:+ pretty chunkY.

(** ** Chunk cache *)

(** The chunk of the point at the centre of the viewport, as computed in
    the first statement of [loadNearbyChunks]. *)
Definition cameraChunk (g : Game) : Z * Z :=
  getChunkCoords g
    (cam_x (camera g) + canvasWidth g / (2 * cam_scale (camera g)))%Q
    (cam_y (camera g) + canvasHeight g / (2 * cam_scale (camera g)))%Q.

(** The values taken by [i] in [for (let i = lo; i <= hi; i++)]. *)
Definition fromTo (lo hi : Z) : list Z := seqZ lo (hi - lo + 1).

(** The array [neededChunks] built by the two nested loops. *)
Definition neededChunks (g : Game) : list (Z * Z) :=
  let c := cameraChunk g in
  let r := chunkLoadRadius g in
  x ← fromTo (c.1 - r) (c.1 + r);
  y ← fromTo (c.2 - r) (c.2 + r);
  if bool_decide (is_Some (loadedChunks g !! getChunkKey x y))
  then [] else [(x, y)].

(** The distance computed in the loop of [unloadDistantChunks]. *)
Definition chunkDistance (chunk : Chunk) (centerChunkX centerChunkY : Z) : Z :=
  Z.max (Z.abs (chunk_x chunk - centerChunkX))
        (Z.abs (chunk_y chunk - centerChunkY)).

Definition chunksToUnload (g : Game) (centerChunkX centerChunkY : Z)
  : list string :=
  let unloadDistance := chunkLoadRadius g + 1 in
  (filter (fun kc => unloadDistance <
                     chunkDistance kc.2 centerChunkX centerChunkY)
          (map_to_list (loadedChunks g))).*1.

Definition unloadChunk (g : Game) (chunkKey : string) : Game :=
  set_fogOfWar (delete chunkKey (fogOfWar g))
    (set_loadedChunks (delete chunkKey (loadedChunks g)) g).

Definition unloadDistantChunks (g : Game) (centerChunkX centerChunkY : Z)
  : Game :=
  foldl unloadChunk g (chunksToUnload g centerChunkX centerChunkY).

Definition loadNearbyChunks (g : Game) : Game * list Effect :=
  let c := cameraChunk g in
  let needed := neededChunks g in
  let sent :=
    if (0 <? Z.of_nat (length needed)) && connected g
    then [Emit (request_chunks needed)] else [] in
  (unloadDistantChunks g c.1 c.2, sent).

(** ** Sync client: reconnect policy and outbound requests *)

(** [attemptReconnect]: the counter is incremented before the delay is
    computed from it. *)
Definition attemptReconnect (g : Game) : Game * list Effect :=
  if reconnectAttempts g <? maxReconnectAttempts g then
    let g' := set_reconnectAttempts (reconnectAttempts g + 1) g in
    let delay := Z.min (1000 * 2 ^ reconnectAttempts g') 10000 in
    (g', [SetTimeout ReconnectTimer delay])
  else
    (g, [ShowNotification "Unable to reconnect. Please refresh the page."
                          "error"]).

(** The handler of the socket's [disconnect] event. *)
Definition onDisconnect (g : Game) : Game * list Effect :=
  let r := attemptReconnect (set_isConnected false g) in
  (r.1, ShowNotification "Disconnected from server" "warning" :: r.2).

(** [n] losses of the connection in a row, none of them followed by a
    successful [connect]: the state they leave and what each of them did. *)
Fixpoint consecutiveFailures (n : nat) (g : Game)
  : Game * list (list Effect) :=
  match n with
  | O => (g, [])
  | S k =>
      let r := onDisconnect g in
      let rs := consecutiveFailures k r.1 in
      (rs.1, r.2 :: rs.2)
  end.

Definition screenToWorld (g : Game) (screenX screenY : Q) : Q * Q :=
  ((screenX / cam_scale (camera g)) + cam_x (camera g),
   (screenY / cam_scale (camera g)) + cam_y (camera g))%Q.

Definition tryPlaceBuilding (g : Game) (screenX screenY : Q)
  : Game * list Effect :=
  if negb (connected g) then
    (g, [ShowNotification "Not connected to server!" "error"])
  else
    let worldPos := screenToWorld g screenX screenY in
    (g, [Emit (place_building (selectedBuilding g) worldPos.1 worldPos.2)]).

Definition sendScoutToExplore (g : Game) (x y : Q) : Game * list Effect :=
  if connected g then (g, [Emit (send_scout x y)])
  else (g, [ShowNotification "Not connected to server!" "error"]).

(** The arrow function handed to [throttle] for [throttledCameraUpdate]. *)
Definition cameraUpdate (g : Game) : Game * list Effect :=
  if connected g then (g, [Emit (update_camera (camera g))]) else (g, []).

(** [throttle(func, limit)]: leading-edge throttle over the captured flag. *)
Definition throttle (func : Game -> Game * list Effect) (limit : Z)
  : Game -> Game * list Effect :=
  fun g =>
    if negb (inThrottle g) then
      let r := func g in
      (set_inThrottle true r.1, r.2 ++ [SetTimeout ThrottleRelease limit])
    else (g, []).

Definition throttledCameraUpdate : Game -> Game * list Effect :=
  throttle cameraUpdate 100.

(** ** Inbound events *)

(** The payload of [player_updated]; a field the event does not carry
    (destructured as [undefined]) is [None]. *)
Record PlayerUpdated := mkPlayerUpdated {
  pu_playerId : string;
  pu_resources : option Resources;
  pu_population : option Z;
  pu_scouts : option (list Scout) }.

(** Truthiness of a number in [if (population)]. *)
Definition truthyNumber (n : Z) : bool := negb (n =? 0).

(** [handlePlayerUpdated]; reading [this.socket.id] throws when there is no
    socket, which is the [None] result. *)
Definition handlePlayerUpdated (g : Game) (data : PlayerUpdated)
  : option Game :=
  match socket g with
  | None => None
  | Some id =>
      if bool_decide (pu_playerId data = id) then
        let g1 := match pu_resources data with
                  | Some r => set_resources r g
                  | None => g
                  end in
        let g2 := match pu_population data with
                  | Some p => if truthyNumber p then set_population p g1
                              else g1
                  | None => g1
                  end in
        let g3 := match pu_scouts data with
                  | Some s => set_scouts s g2
                  | None => g2
                  end in
        Some g3
      else Some g
  end.

(** ** Fog raster engine *)

(** [isFinite]: every number of the model is a finite one. *)
Definition isFinite (q : Q) : bool := true.

Definition inCanvas (size px py : Z) : bool :=
  (0 <=? px) && (px <? size) && (0 <=? py) && (py <? size).

(** The canvas made by [initializeChunkFogOfWar]: [fillRect] of the whole
    surface with [rgba(0, 0, 0, 0.9)]. *)
Definition freshFog (size : Z) : Canvas :=
  fun px py => if inCanvas size px py then (9 # 10)%Q else 0%Q.

Definition initializeChunkFogOfWar (g : Game) (chunkX chunkY : Z) : Game :=
  set_fogOfWar
    (<[getChunkKey chunkX chunkY := freshFog (chunkSize g)]> (fogOfWar g)) g.

(** [revealArea]; [now] is the value of [Date.now()]. *)
Definition revealArea (g : Game) (x y radius : Q) (now : Z) : Game :=
  let chunkCoords := getChunkCoords g x y in
  let chunkKey := getChunkKey chunkCoords.1 chunkCoords.2 in
  match fogOfWar g !! chunkKey with
  | None => g
  | Some _ =>
      set_revealAnimations
        (revealAnimations g ++
           [mkAnim x y 0%Q radius now 800 chunkCoords.1 chunkCoords.2]) g
  end.

(** The comparison [a < b] of two numbers. *)
Definition Qltb (a b : Q) : bool := negb (Qle_bool b a).

Definition easeOutQuad (t : Q) : Q := (1 - (1 - t) * (1 - t))%Q.

(** Square root as the rasteriser computes it: rounded down to a multiple of
    [1 / (d * 2^32)] for a radicand of denominator [d]; exact on squares. *)
Definition sqrtQ (q : Q) : Q :=
  Z.sqrt (Qnum q * Zpos (Qden q) * 4 ^ 32) # (Qden q * 2 ^ 32).

(** Linear interpolation between colour stops [(offset, alpha)], left to
    right, starting after the stop [prev]; past the last stop the last alpha
    holds. *)
Fixpoint interpolate (prev : Q * Q) (stops : list (Q * Q)) (w : Q) : Q :=
  match stops with
  | [] => prev.2
  | s :: rest =>
      if Qle_bool w s.1
      then (prev.2 + (s.2 - prev.2) * ((w - prev.1) / (s.1 - prev.1)))%Q
      else interpolate s rest w
  end.

(** Alpha of the gradient built in [updateRevealAnimations] at offset [w]:
    stops [rgba(255, 255, 255, 0.9)] at 0, [rgba(255, 255, 255, 0.5)] at
    0.7 and [rgba(255, 255, 255, 0)] at 1. *)
Definition gradientAlpha (w : Q) : Q :=
  if Qle_bool w 0 then (9 # 10)%Q
  else interpolate (0, 9 # 10)%Q [(7 # 10, 1 # 2)%Q; (1, 0)%Q] w.

(** Source alpha that filling the disc of centre [(localX, localY)] and
    radius [radius] with the radial gradient deposits on pixel [(px, py)],
    sampled at the pixel's centre. *)
Definition fillAlpha (localX localY radius : Q) (px py : Z) : Q :=
  let dx := (inject_Z px + (1 # 2) - localX)%Q in
  let dy := (inject_Z py + (1 # 2) - localY)%Q in
  let d2 := (dx * dx + dy * dy)%Q in
  if Qle_bool d2 (radius * radius)
  then gradientAlpha (sqrtQ d2 / radius)
  else 0%Q.

(** The [fill()] under [globalCompositeOperation = 'destination-out']: the
    destination alpha is scaled by one minus the source alpha. *)
Definition destinationOut (size : Z) (localX localY radius : Q) (c : Canvas)
  : Canvas :=
  fun px py =>
    if inCanvas size px py
    then (c px py * (1 - fillAlpha localX localY radius px py))%Q
    else c px py.

Definition set_radius (r : Q) (a : Anim) : Anim :=
  mkAnim (anim_x a) (anim_y a) r (anim_targetRadius a) (anim_startTime a)
    (anim_duration a) (anim_chunkX a) (anim_chunkY a).

Definition animProgress (now : Z) (anim : Anim) : Q :=
  let elapsed := now - anim_startTime anim in
  Qmin (inject_Z elapsed / inject_Z (anim_duration anim)) 1%Q.

(** One call of the callback given to [filter] in [updateRevealAnimations]:
    the state with the fog drawn on, the animation with its new radius, and
    the callback's result. *)
Definition tickAnim (now : Z) (g : Game) (anim : Anim)
  : Game * Anim * bool :=
  let progress := animProgress now anim in
  let anim' :=
    set_radius (anim_targetRadius anim * easeOutQuad progress)%Q anim in
  let chunkKey := getChunkKey (anim_chunkX anim') (anim_chunkY anim') in
  let g' :=
    match fogOfWar g !! chunkKey, loadedChunks g !! chunkKey with
    | Some fogData, Some chunk =>
        if isFinite (anim_radius anim') && Qltb 0 (anim_radius anim')
        then
          let localX := (anim_x anim' - chunk_worldX chunk)%Q in
          let localY := (anim_y anim' - chunk_worldY chunk)%Q in
          if isFinite localX && isFinite localY
             && isFinite (anim_radius anim')
          then
            set_fogOfWar
              (<[chunkKey := destinationOut (chunkSize g) localX localY
                               (anim_radius anim') fogData]> (fogOfWar g)) g
          else g
        else g
    | _, _ => g
    end in
  (g', anim', Qltb progress 1).

(** One step of the [filter]: the state so far and the animations kept so
    far, then the same after the callback has run for [anim]. *)
Definition tickStep (now : Z) (acc : Game * list Anim) (anim : Anim)
  : Game * list Anim :=
  let s := tickAnim now acc.1 anim in
  (s.1.1, if s.2 then acc.2 ++ [s.1.2] else acc.2).

(** [updateRevealAnimations]; [now] is the value of [Date.now()]. *)
Definition updateRevealAnimations (g : Game) (now : Z) : Game :=
  let r := foldl (tickStep now) (g, []) (revealAnimations g) in
  set_revealAnimations r.2 r.1.

(** Simulation ticks at the given times, in order. *)
Definition runTicks (g : Game) (times : list Z) : Game :=
  foldl updateRevealAnimations g times.

(** [handleChunksData]: each delivered entry carries its key and the chunk. *)
Definition storeChunk (g : Game) (entry : string * Chunk) : Game :=
  let g1 := set_loadedChunks (<[entry.1 := entry.2]> (loadedChunks g)) g in
  if bool_decide (is_Some (fogOfWar g1 !! entry.1)) then g1
  else initializeChunkFogOfWar g1 (chunk_x entry.2) (chunk_y entry.2).

Definition handleChunksData (g : Game) (chunks : list (string * Chunk))
  : Game :=
  foldl storeChunk g chunks.

(** One persisted mask: its key in the saved object, the two numbers that
    [chunkKey.split(',').map(Number)] yields for that key, and the alpha
    channel of the decoded image. *)
Record SavedFog := mkSavedFog {
  saved_key : string; saved_coords : Z * Z; saved_image : Canvas }.

(** [clearRect] of the whole surface followed by [drawImage(img, 0, 0)]. *)
Definition drawSaved (size : Z) (img : Canvas) : Canvas :=
  fun px py => if inCanvas size px py then img px py else 0%Q.

(** The [onload] handler installed by [restoreFogOfWarFromServer]. *)
Definition restoreFogEntry (g : Game) (e : SavedFog) : Game :=
  let g1 :=
    match fogOfWar g !! saved_key e with
    | Some _ => g
    | None => initializeChunkFogOfWar g (saved_coords e).1 (saved_coords e).2
    end in
  match fogOfWar g1 !! saved_key e with
  | Some _ =>
      set_fogOfWar
        (<[saved_key e := drawSaved (chunkSize g1) (saved_image e)]>
           (fogOfWar g1)) g1
  | None => g1
  end.

(** [restoreFogOfWarFromServer], with the images loading in the order of the
    saved object's entries. *)
Definition restoreFogOfWarFromServer (g : Game) (data : list SavedFog)
  : Game :=
  foldl restoreFogEntry g data.

(** [saveFogOfWarToServer]: every mask, encoded by [toDataURL], under its
    key. *)
Definition saveFogOfWarToServer (g : Game) : list Effect :=
  if connected g then [Emit (save_fog_of_war (map_to_list (fogOfWar g)))]
  else [].

(** [handleAreaExplored]: the save follows the registration of the reveal at
    once, before any tick has drawn. *)
Definition handleAreaExplored (g : Game) (x y range : Q) (now : Z)
  : Game * list Effect :=
  let g' := revealArea g x y range now in
  (g', ShowNotification "Area explored!" "success"
         :: saveFogOfWarToServer g').

(** ** What a recompute pass evicts *)


(** ** What a run of ticks does to one mask *)

Definition animKey (a : Anim) : string :=
  getChunkKey (anim_chunkX a) (anim_chunkY a).

(** The factor by which the callback of [updateRevealAnimations], run for
    [a] at time [now], scales pixel [(px, py)] of the mask stored under
    [key]: one minus the source alpha where it draws, 1 where it does not. *)
Definition animFactor (size : Z) (chunks : gmap string Chunk) (now : Z)
    (a : Anim) (key : string) (px py : Z) : Q :=
  if decide (animKey a = key) then
    match chunks !! key with
    | Some chunk =>
        let radius := (anim_targetRadius a
                       * easeOutQuad (animProgress now a))%Q in
        if Qltb 0 radius && inCanvas size px py
        then (1 - fillAlpha (anim_x a - chunk_worldX chunk)
                            (anim_y a - chunk_worldY chunk) radius px py)%Q
        else 1%Q
    | None => 1%Q
    end
  else 1%Q.

(** The product of the factors of all the animations of one tick. *)
Definition tickFactor (size : Z) (chunks : gmap string Chunk) (now : Z)
    (anims : list Anim) (key : string) (px py : Z) : Q :=
  foldr (fun a acc => (animFactor size chunks now a key px py * acc)%Q)
        1%Q anims.

(** The animations that the filter keeps at time [now]. *)
Definition alive (now : Z) (anims : list Anim) : list Anim :=
  filter (fun a => Qltb (animProgress now a) 1 = true) anims.

(** The product of the factors of a whole run of ticks. *)
Fixpoint runFactor (size : Z) (chunks : gmap string Chunk)
    (anims : list Anim) (times : list Z) (key : string) (px py : Z) : Q :=
  match times with
  | [] => 1%Q
  | now :: rest =>
      (tickFactor size chunks now anims key px py
       * runFactor size chunks (alive now anims) rest key px py)%Q
  end.

(** The animations left after ticks at the given times. *)
Definition aliveAfter (times : list Z) (anims : list Anim) : list Anim :=
  foldl (fun l now => alive now l) anims times.

(** The animation that [revealArea] pushes at time [start], if any. *)
Definition newAnims (g : Game) (x y radius : Q) (start : Z) : list Anim :=
  let chunkCoords := getChunkCoords g x y in
  match fogOfWar g !! getChunkKey chunkCoords.1 chunkCoords.2 with
  | None => []
  | Some _ => [mkAnim x y 0%Q radius start 800 chunkCoords.1 chunkCoords.2]
  end.

(** The factor of one reveal run alone, for ticks given by the time elapsed
    since the reveal. *)
Definition revealFactor (g : Game) (x y radius : Q) (elapsed : list Z)
  : string → Z → Z → Q :=
  runFactor (chunkSize g) (loadedChunks g) (newAnims g x y radius 0) elapsed.

(** The same animation started [s] milliseconds later. *)
Definition shiftAnim (s : Z) (a : Anim) : Anim :=
  mkAnim (anim_x a) (anim_y a) (anim_radius a) (anim_targetRadius a)
    (anim_startTime a + s) (anim_duration a) (anim_chunkX a) (anim_chunkY a).

(** Two animations that differ at most in their current radius. *)
Definition sameReveal (a b : Anim) : Prop :=
  anim_x a = anim_x b ∧ anim_y a = anim_y b
  ∧ anim_targetRadius a = anim_targetRadius b
  ∧ anim_startTime a = anim_startTime b
  ∧ anim_duration a = anim_duration b
  ∧ anim_chunkX a = anim_chunkX b ∧ anim_chunkY a = anim_chunkY b.

(** Two masks with the same opacity in every pixel. *)
Definition sameMask (m m' : Canvas) : Prop :=
  ∀ px py, (m px py == m' px py)%Q.

(** Two fog stores with the same keys and the same opacities. *)
Definition fogEquiv (f f' : gmap string Canvas) : Prop :=
  ∀ key, match f !! key, f' !! key with
         | Some m, Some m' => sameMask m m'
         | None, None => True
         | _, _ => False
         end.

(** [f'] has the keys of [f] and every mask of [f] scaled, pixel by pixel,
    by the factor [F]. *)
Definition fogScaled (F : string → Z → Z → Q) (f f' : gmap string Canvas)
  : Prop :=
  ∀ key, match f !! key, f' !! key with
         | Some m, Some m' => ∀ px py, (m' px py == m px py * F key px py)%Q
         | None, None => True
         | _, _ => False
         end.

(** Every opacity of every mask lies between 0 and 1. *)
Definition fogWellFormed (f : gmap string Canvas) : Prop :=
  ∀ key m, f !! key = Some m → ∀ px py, (0 <= m px py <= 1)%Q.

(** The opacity of one pixel of the mask stored under [key], if any. *)
Definition opacityAt (g : Game) (key : string) (px py : Z) : option Q :=
  (fun m : Canvas => m px py) <$> fogOfWar g !! key.

(** [revealArea] at time [start], then one tick at [start + e] for each
    [e] of [elapsed], in order. *)
Definition revealAndRun (g : Game) (x y radius : Q) (start : Z)
    (elapsed : list Z) : Game :=
  runTicks (revealArea g x y radius start) ((fun e => start + e) <$> elapsed).

(** A schedule of ticks that outlasts the 800 ms of a reveal. *)
Definition completes (elapsed : list Z) : Prop :=
  Exists (fun e => 800 ≤ e) elapsed.

(** ** Example states *)

(** The state the constructor builds, for a canvas of the given size, once
    its socket, of id [id], is connected. *)
Definition onlineGame (id : string) (width height : Q) : Game :=
  mkGame (Some id) true 0 5 (mkCamera 0 0 1) width height
    (mkResources 100 50 25 10) 5 [] [] None 512 3 ∅ ∅ [] false.

(** A connected client holding the chunk of the origin and a far one. *)
Definition twoChunkGame : Game :=
  handleChunksData (onlineGame "me" 800 600)
    [("0,0", mkChunk 0 0 0 0); ("10,10", mkChunk 10 10 5120 5120)].

(** A client whose connection is down, with nothing resident. *)
Definition offlineGame : Game :=
  mkGame (Some "me") false 1 5 (mkCamera 0 0 1) 800 600
    (mkResources 100 50 25 10) 5 [] [] (Some "farm") 512 3 ∅ ∅ [] false.

(** A connected client that owns one scout. *)
Definition scoutingGame : Game :=
  mkGame (Some "me") true 0 5 (mkCamera 0 0 1) 800 600
    (mkResources 100 50 25 10) 5 [] [mkScout 1 40 60 false None] None
    512 3 ∅ ∅ [] false.

(** A [player_updated] event for that client that carries resources only. *)
Definition resourcesOnlyUpdate : PlayerUpdated :=
  mkPlayerUpdated "me" (Some (mkResources 90 45 25 12)) None None.

(** A connected client holding the chunk of the origin, fully fogged. *)
Definition foggedGame : Game :=
  handleChunksData (onlineGame "me" 800 600) [("0,0", mkChunk 0 0 0 0)].

(** A connected client holding two neighbouring chunks, fully fogged. *)
Definition neighbourGame : Game :=
  handleChunksData (onlineGame "me" 800 600)
    [("0,0", mkChunk 0 0 0 0); ("1,0", mkChunk 1 0 512 0)].

(** The mask of chunk [(0, 0)] as persisted while it was still fully
    fogged. *)
Definition savedFullFog : SavedFog := mkSavedFog "0,0" (0, 0) (freshFog 512).

(** ** Vocabulary of the properties *)

(** No character of the string is a comma. *)
Definition commaFree (s : string) : Prop :=
  Forall (fun c => c ≠ Ascii.ascii_of_nat 44) (String.list_ascii_of_string s).

(** The effects contain an [emit]. *)
Definition transmits (es : list Effect) : Prop := ∃ o, Emit o ∈ es.

(** The effects contain a notification. *)
Definition notifies (es : list Effect) : Prop :=
  ∃ message type, ShowNotification message type ∈ es.

(** The effects schedule a timer. *)
Definition schedules (es : list Effect) : Prop :=
  ∃ action delay, SetTimeout action delay ∈ es.

(** The delays of the reconnect timers among the effects. *)
Definition reconnectDelays (es : list Effect) : list Z :=
  omap (fun e => match e with
                 | SetTimeout ReconnectTimer delay => Some delay
                 | _ => None
                 end) es.

(** What a loss of the connection shows once the retries are used up. *)
Definition reconnectFailedNotices : list Effect :=
  [ShowNotification "Disconnected from server" "warning";
   ShowNotification "Unable to reconnect. Please refresh the page." "error"].

(** The resources, population and scouts of [g] are the three values that
    the event carries. *)
Definition replacedOutright (data : PlayerUpdated) (g : Game) : Prop :=
  pu_resources data = Some (resources g)
  ∧ pu_population data = Some (population g)
  ∧ pu_scouts data = Some (scouts g).

(** * The rest of the client *)

(** ** State outside the core *)

(** An entry of [otherPlayers]. *)
Record Peer := mkPeer {
  peer_socket_id : string; peer_name : string; peer_camera : option Camera }.

(** The game state together with the fields of [VikingSettlementTycoon]
    that only the roster, the input handlers and [handleWorldJoined] use. *)
Record Client := mkClient {
  game : Game;
  worldId : option string;
  otherPlayers : gmap string Peer;
  exploredAreas : gset string;
  placementMode : bool;
  isDragging : bool;
  dragStart : Q * Q;
  cameraStart : Q * Q }.

Definition set_game (g : Game) (c : Client) : Client :=
  mkClient g (worldId c) (otherPlayers c) (exploredAreas c) (placementMode c)
    (isDragging c) (dragStart c) (cameraStart c).

Definition set_otherPlayers (m : gmap string Peer) (c : Client) : Client :=
  mkClient (game c) (worldId c) m (exploredAreas c) (placementMode c)
    (isDragging c) (dragStart c) (cameraStart c).

Definition set_placement (b : bool) (c : Client) : Client :=
  mkClient (game c) (worldId c) (otherPlayers c) (exploredAreas c) b
    (isDragging c) (dragStart c) (cameraStart c).

Definition set_isDragging (b : bool) (c : Client) : Client :=
  mkClient (game c) (worldId c) (otherPlayers c) (exploredAreas c)
    (placementMode c) b (dragStart c) (cameraStart c).

Definition set_socket (s : option string) (g : Game) : Game :=
  mkGame s (isConnected g) (reconnectAttempts g)
    (maxReconnectAttempts g) (camera g) (canvasWidth g) (canvasHeight g)
    (resources g) (population g) (buildings g) (scouts g)
    (selectedBuilding g) (chunkSize g) (chunkLoadRadius g) (loadedChunks g)
    (fogOfWar g) (revealAnimations g) (inThrottle g).

Definition set_camera (cam : Camera) (g : Game) : Game :=
  mkGame (socket g) (isConnected g) (reconnectAttempts g)
    (maxReconnectAttempts g) cam (canvasWidth g) (canvasHeight g)
    (resources g) (population g) (buildings g) (scouts g)
    (selectedBuilding g) (chunkSize g) (chunkLoadRadius g) (loadedChunks g)
    (fogOfWar g) (revealAnimations g) (inThrottle g).

Definition set_buildings (bs : list Building) (g : Game) : Game :=
  mkGame (socket g) (isConnected g) (reconnectAttempts g)
    (maxReconnectAttempts g) (camera g) (canvasWidth g) (canvasHeight g)
    (resources g) (population g) bs (scouts g)
    (selectedBuilding g) (chunkSize g) (chunkLoadRadius g) (loadedChunks g)
    (fogOfWar g) (revealAnimations g) (inThrottle g).

Definition set_selectedBuilding (b : option string) (g : Game) : Game :=
  mkGame (socket g) (isConnected g) (reconnectAttempts g)
    (maxReconnectAttempts g) (camera g) (canvasWidth g) (canvasHeight g)
    (resources g) (population g) (buildings g) (scouts g)
    b (chunkSize g) (chunkLoadRadius g) (loadedChunks g)
    (fogOfWar g) (revealAnimations g) (inThrottle g).

(** How a handler ends: by returning, or by the [TypeError] of a call to
    something that is not a function or of a property read on [null]. *)
Inductive Completion := Returns | Throws.

(** ** Connection *)

(** [joinWorld(worldId)]; the player name read from [localStorage] is not
    part of the modelled payload. *)
Definition joinWorld (g : Game) (worldId : option string) : list Effect :=
  if connected g then [Emit (join_world worldId)] else [].

(** The handler of the socket's [connect] event. *)
Definition onConnect (g : Game) : Game * list Effect :=
  let g' := set_reconnectAttempts 0 (set_isConnected true g) in
  (g', ShowNotification "Connected to multiplayer server!" "success"
         :: joinWorld g' None).

(** The callback that [throttle] hands to [setTimeout]. *)
Definition releaseThrottle (g : Game) : Game := set_inThrottle false g.

(** ** Camera and input *)

Definition worldToScreen (g : Game) (worldX worldY : Q) : Q * Q :=
  ((worldX - cam_x (camera g)) * cam_scale (camera g),
   (worldY - cam_y (camera g)) * cam_scale (camera g))%Q.

(** [handleWheel]; [deltaY] is [e.deltaY]. *)
Definition handleWheel (g : Game) (deltaY : Q) : Game :=
  let zoomFactor := if Qltb 0 deltaY then (9 # 10)%Q else (11 # 10)%Q in
  set_camera
    (mkCamera (cam_x (camera g)) (cam_y (camera g))
       (Qmax (3 # 10) (Qmin 2 (cam_scale (camera g) * zoomFactor))))
    g.

Definition moveCamera (dx dy : Q) (g : Game) : Game :=
  set_camera
    (mkCamera (cam_x (camera g) + dx) (cam_y (camera g) + dy)
       (cam_scale (camera g)))%Q
    g.

(** [handleKeyDown]; [key] is [e.key.toLowerCase()].  The Escape branch
    calls [this.cancelPlacement], which the class does not define. *)
Definition handleKeyDown (c : Client) (key : string) : Client * Completion :=
  let speed := 50%Q in
  if bool_decide (key = "w") then
    (set_game (moveCamera 0 (- speed) (game c)) c, Returns)
  else if bool_decide (key = "s") then
    (set_game (moveCamera 0 speed (game c)) c, Returns)
  else if bool_decide (key = "a") then
    (set_game (moveCamera (- speed) 0 (game c)) c, Returns)
  else if bool_decide (key = "d") then
    (set_game (moveCamera speed 0 (game c)) c, Returns)
  else if bool_decide (key = "escape") then (c, Throws)
  else (c, Returns).

(** Truthiness of [this.selectedBuilding]: neither [null] nor the empty
    string. *)
Definition truthyString (s : option string) : bool :=
  match s with
  | Some t => negb (bool_decide (t = ""))
  | None => false
  end.

(** [handleMouseDown]; [(x, y)] is the position inside the canvas and
    [button] is [e.button], absent for the events that [handleTouchStart]
    builds. *)
Definition handleMouseDown (c : Client) (x y : Q) (button : option Z)
  : Client * list Effect :=
  if placementMode c && truthyString (selectedBuilding (game c)) then
    let r := tryPlaceBuilding (game c) x y in
    (set_game r.1 c, r.2)
  else if bool_decide (button = Some 2) then
    let worldPos := screenToWorld (game c) x y in
    let r := sendScoutToExplore (game c) worldPos.1 worldPos.2 in
    (set_game r.1 c, r.2)
  else
    (mkClient (game c) (worldId c) (otherPlayers c) (exploredAreas c)
       (placementMode c) true (x, y)
       (cam_x (camera (game c)), cam_y (camera (game c))),
     []).

(** [handleMouseMove]: the drag moves the camera by the screen offset, then
    the throttled camera update runs. *)
Definition handleMouseMove (c : Client) (x y : Q) : Client * list Effect :=
  if negb (isDragging c) then (c, [])
  else
    let dx := (x - (dragStart c).1)%Q in
    let dy := (y - (dragStart c).2)%Q in
    let moved :=
      set_camera
        (mkCamera ((cameraStart c).1 - dx) ((cameraStart c).2 - dy)
           (cam_scale (camera (game c))))%Q
        (game c) in
    let r := throttledCameraUpdate moved in
    (set_game r.1 c, r.2).

Definition handleMouseUp (c : Client) : Client := set_isDragging false c.

(** [selectBuilding]; [cardExists] tells whether the document holds the
    card [[data-building="..."]], whose [classList] is read after the state
    has been set and before the notification. *)
Definition selectBuilding (c : Client) (buildingType : string)
    (cardExists : bool) : Client * list Effect * Completion :=
  let c' :=
    set_placement true
      (set_game (set_selectedBuilding (Some buildingType) (game c)) c) in
  if cardExists then
    (c', [ShowNotification ("Click on the map to place " +:+ buildingType)
                           "success"], Returns)
  else (c', [], Throws).

(** ** Roster *)

Definition handlePlayerJoined (c : Client) (socketId playerName : string)
    (cam : option Camera) : Client * list Effect :=
  (set_otherPlayers
     (<[socketId := mkPeer socketId playerName cam]> (otherPlayers c)) c,
   [ShowNotification (playerName +:+ " joined the world!") "info"]).

Definition handlePlayerLeft (c : Client) (playerId : string)
  : Client * list Effect :=
  match otherPlayers c !! playerId with
  | Some player =>
      (set_otherPlayers (delete playerId (otherPlayers c)) c,
       [ShowNotification (peer_name player +:+ " left the world") "info"])
  | None => (c, [])
  end.

Definition handlePlayerCameraUpdated (c : Client) (playerId : string)
    (cam : option Camera) : Client :=
  match otherPlayers c !! playerId with
  | Some player =>
      set_otherPlayers
        (<[playerId := mkPeer (peer_socket_id player) (peer_name player) cam]>
           (otherPlayers c)) c
  | None => c
  end.

(** ** Session events *)

(** The [playerData] of [world_joined]; a property the snapshot does not
    carry is [None]. *)
Record PlayerData := mkPlayerData {
  pd_resources : option Resources;
  pd_population : option Z;
  pd_buildings : option (list Building);
  pd_scouts : option (list Scout);
  pd_camera : option Camera;
  pd_explored_areas : option (list string);
  pd_fog_of_war : option (list SavedFog) }.

Record WorldJoined := mkWorldJoined {
  wj_worldId : string;
  wj_playerData : PlayerData;
  wj_otherPlayers : list Peer }.

(** [x || y] for a number that may be absent. *)
Definition orNumber (x : option Z) (y : Z) : Z :=
  match x with
  | Some n => if truthyNumber n then n else y
  | None => y
  end.

(** The roster that [clear()] followed by the [forEach] of [set] builds. *)
Definition rosterOf (players : list Peer) : gmap string Peer :=
  foldl (fun m player => <[peer_socket_id player := player]> m) ∅ players.

(** [handleWorldJoined]: the new state, what the handler emits and shows,
    and the saved masks whose images it has started to load (each [onload]
    runs later, as [restoreFogEntry]). *)
Definition handleWorldJoined (c : Client) (data : WorldJoined)
  : Client * list Effect * list SavedFog :=
  let pd := wj_playerData data in
  let g := game c in
  let g1 :=
    set_camera (default (camera g) (pd_camera pd))
      (set_scouts (default (scouts g) (pd_scouts pd))
         (set_buildings (default (buildings g) (pd_buildings pd))
            (set_population (orNumber (pd_population pd) (population g))
               (set_resources (default (resources g) (pd_resources pd))
                  g)))) in
  let explored :=
    match pd_explored_areas pd with
    | Some areas => list_to_set areas
    | None => exploredAreas c
    end in
  let r := loadNearbyChunks g1 in
  (mkClient r.1 (Some (wj_worldId data)) (rosterOf (wj_otherPlayers data))
     explored (placementMode c) (isDragging c) (dragStart c) (cameraStart c),
   r.2 ++ [ShowNotification
             ("Joined world " +:+ wj_worldId data +:+ " with "
              +:+ pretty (length (wj_otherPlayers data))
              +:+ " other players!") "success"],
   default [] (pd_fog_of_war pd)).

Record BuildingPlaced := mkBuildingPlaced {
  bp_playerId : string; bp_building : Building;
  bp_playerResources : Resources }.

(** [handleBuildingPlaced].  For the local player the handler stores the
    resources and then calls [this.cancelPlacement], which the class does
    not define: it throws before the notification. *)
Definition handleBuildingPlaced (c : Client) (data : BuildingPlaced)
  : Client * list Effect * Completion :=
  match socket (game c) with
  | None => (c, [], Throws)
  | Some id =>
      if bool_decide (bp_playerId data = id) then
        (set_game (set_resources (bp_playerResources data) (game c)) c,
         [], Throws)
      else
        (set_game
           (set_buildings (buildings (game c) ++ [bp_building data])
              (game c)) c,
         [ShowNotification (building_name (bp_building data) +:+ " built!")
                           "success"],
         Returns)
  end.

(** [handleBuildingRejected]: the notification, then the call of the
    undefined [this.cancelPlacement]. *)
Definition handleBuildingRejected (c : Client) (reason : string)
  : Client * list Effect * Completion :=
  (c, [ShowNotification reason "error"], Throws).

Definition handleScoutRejected (c : Client) (reason : string)
  : Client * list Effect :=
  (c, [ShowNotification reason "warning"]).

(** The [scout] of [scout_sent]: its id and the properties it carries. *)
Record ScoutPatch := mkScoutPatch {
  patch_id : Z;
  patch_x : option Q;
  patch_y : option Q;
  patch_exploring : option bool;
  patch_target : option (option (Q * Q)) }.

(** [Object.assign(myScout, scout)]. *)
Definition assignScout (s : Scout) (p : ScoutPatch) : Scout :=
  mkScout (patch_id p)
    (default (scout_x s) (patch_x p))
    (default (scout_y s) (patch_y p))
    (default (scout_exploring s) (patch_exploring p))
    (default (scout_target s) (patch_target p)).

(** [find] of the first scout with the patch's id, assigned in place. *)
Fixpoint assignFirst (l : list Scout) (p : ScoutPatch) : list Scout :=
  match l with
  | [] => []
  | s :: rest =>
      if scout_id s =? patch_id p then assignScout s p :: rest
      else s :: assignFirst rest p
  end.

Definition handleScoutSent (g : Game) (playerId : string) (scout : ScoutPatch)
  : Game * list Effect * Completion :=
  match socket g with
  | None => (g, [], Throws)
  | Some id =>
      (if bool_decide (playerId = id)
       then set_scouts (assignFirst (scouts g) scout) g else g,
       [ShowNotification "Scout dispatched!" "success"], Returns)
  end.

(** ** Statistics *)

Definition countType (type : string) (bs : list Building) : Z :=
  Z.of_nat (length (filter (fun b => building_type b = type) bs)).

(** The three widths, in percent, that [updateStatsDisplay] sets:
    happiness, defense, prosperity. *)
Definition updateStatsDisplay (g : Game) : Z * Z * Z :=
  let temples := countType "temple" (buildings g) in
  let happiness := Z.min 100 (50 + temples * 15) in
  let blacksmiths := countType "blacksmith" (buildings g) in
  let defense := Z.min 100 (blacksmiths * 20) in
  let tradingPosts := countType "tradingpost" (buildings g) in
  let prosperity := Z.min 100 (30 + tradingPosts * 25) in
  (happiness, defense, prosperity).

(** ** The frame *)

(** [update]: the recompute pass, the tick of the reveals at [now], and the
    save when [random], the value of [Math.random()], is below 0.01. *)
Definition update (g : Game) (now : Z) (random : Q) : Game * list Effect :=
  let r := loadNearbyChunks g in
  let g' := updateRevealAnimations r.1 now in
  (g', r.2 ++ (if Qltb random (1 # 100) then saveFogOfWarToServer g'
               else [])).

(** ** Dispatch *)

(** What reaches the handlers registered by [connectToServer] and
    [setupEventListeners], the [onload] of a saved mask's image, the frame
    and the throttle's timer.  The reconnect timer and the new-world button,
    which replace the socket, are not among them. *)
Inductive Event :=
| Connect
| Disconnect
| WorldJoinedEvent (data : WorldJoined)
| PlayerJoined (socketId playerName : string) (cam : option Camera)
| PlayerLeft (playerId : string)
| BuildingPlacedEvent (data : BuildingPlaced)
| BuildingRejected (reason : string)
| ScoutSent (playerId : string) (scout : ScoutPatch)
| ScoutRejected (reason : string)
| PlayerUpdatedEvent (data : PlayerUpdated)
| PlayerCameraUpdated (playerId : string) (cam : option Camera)
| ChunksData (chunks : list (string * Chunk))
| AreaExplored (x y range : Q) (now : Z)
| ServerError (message : string)
| ImageLoaded (saved : SavedFog)
| MouseDown (x y : Q) (button : option Z)
| MouseMove (x y : Q)
| MouseUp
| Wheel (deltaY : Q)
| KeyDown (key : string)
| SelectBuilding (buildingType : string) (cardExists : bool)
| SaveGameClick
| Frame (now : Z) (random : Q)
| ThrottleTimer.

(** What one event leaves: the state, the effects in program order, the
    image loads started, and how the handler ended. *)
Record Reaction := mkReaction {
  after : Client;
  effects : list Effect;
  imageLoads : list SavedFog;
  completion : Completion }.

Definition onGame (c : Client) (r : Game * list Effect) : Reaction :=
  mkReaction (set_game r.1 c) r.2 [] Returns.

Definition dispatch (c : Client) (e : Event) : Reaction :=
  match e with
  | Connect => onGame c (onConnect (game c))
  | Disconnect => onGame c (onDisconnect (game c))
  | WorldJoinedEvent data =>
      let r := handleWorldJoined c data in
      mkReaction r.1.1 r.1.2 r.2 Returns
  | PlayerJoined socketId playerName cam =>
      let r := handlePlayerJoined c socketId playerName cam in
      mkReaction r.1 r.2 [] Returns
  | PlayerLeft playerId =>
      let r := handlePlayerLeft c playerId in
      mkReaction r.1 r.2 [] Returns
  | BuildingPlacedEvent data =>
      let r := handleBuildingPlaced c data in
      mkReaction r.1.1 r.1.2 [] r.2
  | BuildingRejected reason =>
      let r := handleBuildingRejected c reason in
      mkReaction r.1.1 r.1.2 [] r.2
  | ScoutSent playerId scout =>
      let r := handleScoutSent (game c) playerId scout in
      mkReaction (set_game r.1.1 c) r.1.2 [] r.2
  | ScoutRejected reason =>
      let r := handleScoutRejected c reason in
      mkReaction r.1 r.2 [] Returns
  | PlayerUpdatedEvent data =>
      match handlePlayerUpdated (game c) data with
      | Some g => mkReaction (set_game g c) [] [] Returns
      | None => mkReaction c [] [] Throws
      end
  | PlayerCameraUpdated playerId cam =>
      mkReaction (handlePlayerCameraUpdated c playerId cam) [] [] Returns
  | ChunksData chunks =>
      mkReaction (set_game (handleChunksData (game c) chunks) c) [] [] Returns
  | AreaExplored x y range now =>
      onGame c (handleAreaExplored (game c) x y range now)
  | ServerError message =>
      mkReaction c [ShowNotification message "error"] [] Returns
  | ImageLoaded saved =>
      mkReaction (set_game (restoreFogEntry (game c) saved) c) [] [] Returns
  | MouseDown x y button =>
      let r := handleMouseDown c x y button in
      mkReaction r.1 r.2 [] Returns
  | MouseMove x y =>
      let r := handleMouseMove c x y in
      mkReaction r.1 r.2 [] Returns
  | MouseUp => mkReaction (handleMouseUp c) [] [] Returns
  | Wheel deltaY =>
      mkReaction (set_game (handleWheel (game c) deltaY) c) [] [] Returns
  | KeyDown key =>
      let r := handleKeyDown c key in
      mkReaction r.1 [] [] r.2
  | SelectBuilding buildingType cardExists =>
      let r := selectBuilding c buildingType cardExists in
      mkReaction r.1.1 r.1.2 [] r.2
  | SaveGameClick =>
      mkReaction c [ShowNotification "Game saved to server!" "success"] []
        Returns
  | Frame now random => onGame c (update (game c) now random)
  | ThrottleTimer =>
      mkReaction (set_game (releaseThrottle (game c)) c) [] [] Returns
  end.

(** The state after a sequence of events, and everything they emitted and
    showed. *)
Definition runEvents (c : Client) (events : list Event) : Client :=
  foldl (fun c e => after (dispatch c e)) c events.

Fixpoint effectsOf (c : Client) (events : list Event) : list Effect :=
  match events with
  | [] => []
  | e :: rest =>
      effects (dispatch c e) ++ effectsOf (after (dispatch c e)) rest
  end.

(** The camera updates among the effects. *)
Definition cameraUpdates (es : list Effect) : list Camera :=
  omap (fun e => match e with
                 | Emit (update_camera cam) => Some cam
                 | _ => None
                 end) es.

(** Every resident chunk has a mask. *)
Definition chunksHaveFog (g : Game) : Prop :=
  ∀ key, is_Some (loadedChunks g !! key) → is_Some (fogOfWar g !! key).

(** The masks are transparent outside the canvas. *)
Definition fogClipped (size : Z) (f : gmap string Canvas) : Prop :=
  ∀ key m, f !! key = Some m →
    ∀ px py, inCanvas size px py = false → (m px py == 0)%Q.

(** Every resident chunk is stored under the key of its own coordinates. *)
Definition wellKeyed (m : gmap string Chunk) : Prop :=
  ∀ key chunk, m !! key = Some chunk →
    key = getChunkKey (chunk_x chunk) (chunk_y chunk).

(** Every entry of a delivery is keyed by the coordinates of its chunk. *)
Definition wellKeyedDelivery (chunks : list (string * Chunk)) : Prop :=
  Forall (fun e => e.1 = getChunkKey (chunk_x e.2) (chunk_y e.2)) chunks.


(** What the cache and the fog store keep in step. *)
Definition terrainConsistent (g : Game) : Prop :=
  wellKeyed (loadedChunks g) ∧ chunksHaveFog g
  ∧ fogClipped (chunkSize g) (fogOfWar g).

(** What [saveFogOfWarToServer] sends, as [restoreFogOfWarFromServer] reads
    it back when [coords] is what the keys parse to. *)
Definition savedEntries (coords : string → Z * Z) (g : Game)
  : list SavedFog :=
  (fun km : string * Canvas => mkSavedFog km.1 (coords km.1) km.2)
    <$> map_to_list (fogOfWar g).

(** [g'] is [g] but for its resident chunks, its masks and its reveal
    animations. *)
Definition terrainOnly (g g' : Game) : Prop :=
  g' = set_revealAnimations (revealAnimations g')
         (set_fogOfWar (fogOfWar g')
            (set_loadedChunks (loadedChunks g') g)).

(** The event is a building selection. *)
Definition isSelect (e : Event) : bool :=
  match e with SelectBuilding _ _ => true | _ => false end.

(** The event replaces the roster, or adds or removes one of its entries. *)
Definition changesRoster (e : Event) : bool :=
  match e with
  | WorldJoinedEvent _ | PlayerJoined _ _ _ | PlayerLeft _ => true
  | _ => false
  end.

(** The event is a [world_joined]. *)
Definition isWorldJoined (e : Event) : bool :=
  match e with WorldJoinedEvent _ => true | _ => false end.

(** The buildings that the [building_placed] events among [events] announce
    for players other than the one of socket id [id]. *)
Definition peerBuildings (id : string) (events : list Event)
  : list Building :=
  omap (fun e => match e with
                 | BuildingPlacedEvent data =>
                     if bool_decide (bp_playerId data = id) then None
                     else Some (bp_building data)
                 | _ => None
                 end) events.

(** A client with a roster of one, not dragging. *)
Definition exampleClient : Client :=
  mkClient foggedGame (Some "midgard")
    {[ "peer" := mkPeer "peer" "Ragnar" (Some (mkCamera 10 20 1)) ]} ∅
    false false (0, 0)%Q (0, 0)%Q.

(** * Properties *)

(** ** Coordinate mapper *)

Section Floor.
Variable s : Z.
Hypothesis s_pos : 0 < s.



End Floor.

(** ** Chunk keys *)

Lemma commaFree_pretty_N_go (x : N) (s : string) :
  commaFree s → commaFree (pretty_N_go x s).
Proof.
  revert s. induction (N.lt_wf_0 x) as [x _ IH]; intros s Hs.
  destruct (decide (x = 0)%N) as [-> | Hx]; [by rewrite pretty_N_go_0|].
  rewrite pretty_N_go_step by lia. apply IH.
  - apply N.div_lt; lia.
  - unfold commaFree. cbn. constructor; [|done].
    unfold pretty_N_char. by repeat case_match.
Qed.

Lemma commaFree_pretty_Z (x : Z) : commaFree (pretty x).
Proof.
  assert (HN : ∀ n : N, commaFree (pretty n)).
  { intros n. unfold pretty, pretty_N. case_decide.
    - by repeat constructor.
    - apply commaFree_pretty_N_go. constructor. }
  destruct x as [|p|p]; unfold pretty, pretty_Z.
  - by repeat constructor.
  - apply HN.
  - unfold commaFree. cbn. constructor; [done|]. apply HN.
Qed.

Lemma split_at_comma (s1 s2 t1 t2 : string) :
  commaFree s1 → commaFree t1 →
  s1 +:+ "," +:+ s2 = t1 +:+ "," +:+ t2 → s1 = t1 ∧ s2 = t2.
Proof.
  revert t1. induction s1 as [|c s1 IH]; intros [|d t1] Hs Ht Heq;
    cbn in *.
  - by simplify_eq.
  - simplify_eq. by inv Ht.
  - simplify_eq. by inv Hs.
  - inv Hs. inv Ht. simplify_eq.
    destruct (IH t1) as [-> ->]; done.
Qed.

(** [getChunkKey] is collision-free. *)
Lemma getChunkKey_inj (x y x' y' : Z) :
  getChunkKey x y = getChunkKey x' y' → x = x' ∧ y = y'.
Proof.
  unfold getChunkKey. intros Heq.
  apply split_at_comma in Heq as [Hx Hy]; [|apply commaFree_pretty_Z..].
  split; by apply (inj pretty).
Qed.

(** ** Chunk cache *)

Lemma elem_of_fromTo (lo hi k : Z) : k ∈ fromTo lo hi ↔ lo ≤ k ≤ hi.
Proof. unfold fromTo. rewrite elem_of_seqZ. lia. Qed.


Lemma chebyshev_le (x y cx cy r : Z) :
  Z.max (Z.abs (x - cx)) (Z.abs (y - cy)) ≤ r ↔
  cx - r ≤ x ≤ cx + r ∧ cy - r ≤ y ≤ cy + r.
Proof. lia. Qed.

Lemma elem_of_neededChunks (g : Game) (x y : Z) :
  (x, y) ∈ neededChunks g ↔
  Z.max (Z.abs (x - (cameraChunk g).1)) (Z.abs (y - (cameraChunk g).2))
    ≤ chunkLoadRadius g
  ∧ loadedChunks g !! getChunkKey x y = None.
Proof.
  unfold neededChunks. rewrite chebyshev_le, list_elem_of_bind. split.
  - intros (x' & Hin & Hx). apply list_elem_of_bind in Hin as (y' & Hin & Hy).
    apply elem_of_fromTo in Hx, Hy. case_bool_decide as Hres.
    + by apply not_elem_of_nil in Hin.
    + apply list_elem_of_singleton in Hin. simplify_eq.
      split; [done|]. by apply eq_None_not_Some.
  - intros ((Hx & Hy) & Hnone). exists x. split; [|by apply elem_of_fromTo].
    apply list_elem_of_bind. exists y. split; [|by apply elem_of_fromTo].
    rewrite bool_decide_eq_false_2; [apply list_elem_of_singleton; done|].
    by apply eq_None_not_Some.
Qed.



(** Deleting a list of keys, one [unloadChunk] at a time. *)
Lemma unloadChunks_loaded (ks : list string) (g : Game) (key : string) :
  loadedChunks (foldl unloadChunk g ks) !! key =
  if decide (key ∈ ks) then None else loadedChunks g !! key.
Proof.
  revert g. induction ks as [|k ks IH]; intros g.
  - case_decide as Hin; [by apply not_elem_of_nil in Hin | done].
  - change (foldl unloadChunk g (k :: ks))
      with (foldl unloadChunk (unloadChunk g k) ks).
    rewrite IH. unfold unloadChunk; cbn [loadedChunks fogOfWar set_fogOfWar set_loadedChunks].
    destruct (decide (key = k)) as [->|Hne].
    + rewrite lookup_delete_eq. repeat case_decide; try done; set_solver.
    + rewrite lookup_delete_ne by done.
      repeat case_decide; try done; set_solver.
Qed.

Lemma unloadChunks_fog (ks : list string) (g : Game) (key : string) :
  fogOfWar (foldl unloadChunk g ks) !! key =
  if decide (key ∈ ks) then None else fogOfWar g !! key.
Proof.
  revert g. induction ks as [|k ks IH]; intros g.
  - case_decide as Hin; [by apply not_elem_of_nil in Hin | done].
  - change (foldl unloadChunk g (k :: ks))
      with (foldl unloadChunk (unloadChunk g k) ks).
    rewrite IH. unfold unloadChunk; cbn [loadedChunks fogOfWar set_fogOfWar set_loadedChunks].
    destruct (decide (key = k)) as [->|Hne].
    + rewrite lookup_delete_eq. repeat case_decide; try done; set_solver.
    + rewrite lookup_delete_ne by done.
      repeat case_decide; try done; set_solver.
Qed.

Lemma elem_of_chunksToUnload (g : Game) (cx cy : Z) (key : string) :
  key ∈ chunksToUnload g cx cy ↔
  ∃ chunk, loadedChunks g !! key = Some chunk
           ∧ chunkLoadRadius g + 1 < chunkDistance chunk cx cy.
Proof.
  unfold chunksToUnload. rewrite list_elem_of_fmap. split.
  - intros ([k chunk] & -> & Hin). apply list_elem_of_filter in Hin as [Hd Hin].
    apply elem_of_map_to_list in Hin. by exists chunk.
  - intros (chunk & Hk & Hd). exists (key, chunk). split; [done|].
    apply list_elem_of_filter. split; [done|]. by apply elem_of_map_to_list.
Qed.




(** The pass keys on the centre of the view, not on the camera's corner: on
    a 1920 x 1000 canvas at scale 1 with the camera at the origin, the centre
    (960, 500) lies in chunk (1, 0); on an 800 x 600 canvas it lies in chunk
    (0, 0). *)
Example cameraChunk_view_centre :
  cameraChunk (onlineGame "me" 1920 1000) = (1, 0)
  ∧ cameraChunk (onlineGame "me" 800 600) = (0, 0).
Proof. split; reflexivity. Qed.



(** ** Sync client *)

Lemma attemptReconnect_retry (g : Game) :
  reconnectAttempts g < maxReconnectAttempts g →
  attemptReconnect g =
    (set_reconnectAttempts (reconnectAttempts g + 1) g,
     [SetTimeout ReconnectTimer
        (Z.min (1000 * 2 ^ (reconnectAttempts g + 1)) 10000)]).
Proof.
  intros Hlt. unfold attemptReconnect.
  by rewrite (proj2 (Z.ltb_lt _ _) Hlt).
Qed.

Lemma attemptReconnect_exhausted (g : Game) :
  maxReconnectAttempts g ≤ reconnectAttempts g →
  attemptReconnect g =
    (g, [ShowNotification "Unable to reconnect. Please refresh the page."
                          "error"]).
Proof.
  intros Hge. unfold attemptReconnect.
  by rewrite (proj2 (Z.ltb_ge _ _) Hge).
Qed.

Lemma onDisconnect_exhausted (g : Game) :
  maxReconnectAttempts g ≤ reconnectAttempts g →
  onDisconnect g = (set_isConnected false g, reconnectFailedNotices).
Proof.
  intros Hge. unfold onDisconnect.
  by rewrite attemptReconnect_exhausted.
Qed.

Lemma consecutiveFailures_exhausted (k : nat) (g : Game) :
  maxReconnectAttempts g ≤ reconnectAttempts g → isConnected g = false →
  consecutiveFailures k g = (g, replicate k reconnectFailedNotices).
Proof.
  intros Hge Hoff. induction k as [|k IH]; [done|].
  cbn [consecutiveFailures]. rewrite onDisconnect_exhausted by done.
  cbn [fst snd].
  replace (set_isConnected false g) with g
    by (destruct g; cbn in Hoff; by subst).
  by rewrite IH.
Qed.

(** C3. From a counter at 0 and a maximum of 5, the first five losses of the
    connection in a row schedule a reconnect after 2000, 4000, 8000, 10000
    and 10000 ms, each delay being [min (1000 * 2^n) 10000] for the counter
    [n] just incremented; the sixth and every later one schedules nothing,
    leaves the counter at 5 and only reports the failure. *)
Theorem attemptReconnect_backoff (g : Game) :
  reconnectAttempts g = 0 → maxReconnectAttempts g = 5 →
  reconnectDelays <$> (consecutiveFailures 5 g).2
    = [[2000]; [4000]; [8000]; [10000]; [10000]]
  ∧ (consecutiveFailures 5 g).1
    = set_reconnectAttempts 5 (set_isConnected false g)
  ∧ (∀ n, 0 ≤ n < 5 →
       attemptReconnect (set_reconnectAttempts n g) =
         (set_reconnectAttempts (n + 1) g,
          [SetTimeout ReconnectTimer (Z.min (1000 * 2 ^ (n + 1)) 10000)]))
  ∧ (∀ k : nat,
       let failed := (consecutiveFailures 5 g).1 in
       let r := consecutiveFailures k failed in
       r.1 = failed
       ∧ Forall (fun es => es = reconnectFailedNotices ∧ ¬ schedules es) r.2
       ∧ length r.2 = k)
  ∧ (consecutiveFailures 6 g).2 !! 5%nat = Some reconnectFailedNotices.
Proof.
  intros H0 H5. destruct g; cbn in H0, H5; subst. split_and!.
  - vm_compute. reflexivity.
  - vm_compute. reflexivity.
  - intros n Hn. rewrite attemptReconnect_retry by (cbn; lia). reflexivity.
  - intros k failed r. unfold r, failed.
    change (consecutiveFailures 5 ?g0).1
      with (set_reconnectAttempts 5 (set_isConnected false g0)).
    rewrite consecutiveFailures_exhausted by (cbn; first [lia | done]).
    cbn [fst snd]. split_and!; [done | | apply length_replicate].
    apply Forall_replicate. split; [done|].
    intros (action & delay & Hin).
    repeat (apply elem_of_cons in Hin as [Hin | Hin]; [discriminate|]).
    by apply not_elem_of_nil in Hin.
  - vm_compute. reflexivity.
Qed.

Lemma attemptReconnect_backoff_witness :
  reconnectDelays <$> (consecutiveFailures 5 (onlineGame "me" 800 600)).2
    = [[2000]; [4000]; [8000]; [10000]; [10000]].
Proof.
  apply (attemptReconnect_backoff (onlineGame "me" 800 600));
    reflexivity.
Defined.

(** C4, as the code has it.  Place-building and send-scout are transmitted
    exactly when the client is connected, and otherwise dropped with the
    notice "Not connected to server!", the state being left as it was.  A
    camera update and a chunk request are transmitted only when the client
    is connected (the chunk request only when some coordinate is missing),
    and otherwise dropped without any notice; no request is retained in the
    state, so none can be replayed. *)
Theorem outbound_requests_gate (g : Game) :
  (∀ sx sy, let r := tryPlaceBuilding g sx sy in
     r.1 = g
     ∧ (transmits r.2 ↔ connected g = true)
     ∧ (connected g = true →
        r.2 = [Emit (place_building (selectedBuilding g)
                       (screenToWorld g sx sy).1 (screenToWorld g sx sy).2)])
     ∧ (connected g = false →
        r.2 = [ShowNotification "Not connected to server!" "error"]))
  ∧ (∀ x y, let r := sendScoutToExplore g x y in
     r.1 = g
     ∧ (transmits r.2 ↔ connected g = true)
     ∧ (connected g = true → r.2 = [Emit (send_scout x y)])
     ∧ (connected g = false →
        r.2 = [ShowNotification "Not connected to server!" "error"]))
  ∧ (let r := cameraUpdate g in
     r.1 = g
     ∧ (transmits r.2 ↔ connected g = true)
     ∧ (connected g = true → r.2 = [Emit (update_camera (camera g))])
     ∧ (connected g = false → r.2 = []))
  ∧ (let r := throttledCameraUpdate g in
     (transmits r.2 ↔ connected g = true ∧ inThrottle g = false)
     ∧ ¬ notifies r.2
     ∧ (inThrottle g = false → r.1 = set_inThrottle true g)
     ∧ (inThrottle g = true → r = (g, [])))
  ∧ (let r := loadNearbyChunks g in
     r.1 = unloadDistantChunks g (cameraChunk g).1 (cameraChunk g).2
     ∧ (transmits r.2 ↔ connected g = true ∧ neededChunks g ≠ [])
     ∧ (connected g = true → neededChunks g ≠ [] →
        r.2 = [Emit (request_chunks (neededChunks g))])
     ∧ (connected g = false → r.2 = [])).
Proof.
  split_and!.
  - intros sx sy r. unfold r, tryPlaceBuilding, transmits.
    destruct (connected g); cbn; split_and!; try done.
    + split; [done|]. intros _. eexists. by apply list_elem_of_singleton.
    + split; [|done]. intros [o Hin]. by apply list_elem_of_singleton in Hin.
  - intros x y r. unfold r, sendScoutToExplore, transmits.
    destruct (connected g); cbn; split_and!; try done.
    + split; [done|]. intros _. eexists. by apply list_elem_of_singleton.
    + split; [|done]. intros [o Hin]. by apply list_elem_of_singleton in Hin.
  - intros r. unfold r, cameraUpdate, transmits.
    destruct (connected g); cbn; split_and!; try done.
    + split; [done|]. intros _. eexists. by apply list_elem_of_singleton.
    + split; [|done]. intros [o Hin]. by apply not_elem_of_nil in Hin.
  - intros r. unfold r, throttledCameraUpdate, throttle, cameraUpdate,
      transmits, notifies.
    destruct (inThrottle g), (connected g); cbn; split_and!; try done;
      try (intros (? & ? & Hin); set_solver).
    + split; [|intros [? ?]; done]. intros [o Hin]. set_solver.
    + split; [|intros [? ?]; done]. intros [o Hin]. set_solver.
    + split; [done|]. intros _. eexists. left.
    + split; [|intros [? ?]; done]. intros [o Hin]. set_solver.
  - intros r. unfold r, loadNearbyChunks, transmits. cbn [fst snd].
    destruct (neededChunks g) as [|c l], (connected g); cbn;
      split_and!; try done.
    all: try (split; [|intros [? ?]; done]; intros [o Hin]; set_solver).
    split; [done|]. intros _. eexists. left.
Qed.

(** C4 as stated fails: with the connection down, a camera update and a
    chunk request for 49 missing chunks are dropped without any notice. *)
Lemma outbound_notice_counterexample :
  connected offlineGame = false
  ∧ ¬ notifies (cameraUpdate offlineGame).2
  ∧ ¬ notifies (throttledCameraUpdate offlineGame).2
  ∧ length (neededChunks offlineGame) = 49%nat
  ∧ ¬ notifies (loadNearbyChunks offlineGame).2.
Proof.
  split_and!; try reflexivity.
  - intros (m & t & Hin). by apply not_elem_of_nil in Hin.
  - intros (m & t & Hin). apply list_elem_of_singleton in Hin. discriminate.
  - intros (m & t & Hin). by apply not_elem_of_nil in Hin.
Qed.

Lemma outbound_requests_gate_witness :
  connected offlineGame = false
  ∧ (tryPlaceBuilding offlineGame 10 20).2
    = [ShowNotification "Not connected to server!" "error"]
  ∧ (sendScoutToExplore offlineGame 10 20).2
    = [ShowNotification "Not connected to server!" "error"]
  ∧ (cameraUpdate offlineGame).2 = []
  ∧ (loadNearbyChunks offlineGame).2 = [].
Proof.
  pose proof (outbound_requests_gate offlineGame)
    as (Hplace & Hscout & Hcam & _ & Hchunks).
  split; [reflexivity|]. split_and!.
  - apply (Hplace 10%Q 20%Q). reflexivity.
  - apply (Hscout 10%Q 20%Q). reflexivity.
  - apply Hcam. reflexivity.
  - apply Hchunks. reflexivity.
Defined.

(** ** Inbound events *)

(** C5, as the code has it.  A [player_updated] event for the local
    connection id replaces, each as a whole, the resources and the scouts
    that it carries and the population that it carries as a non-zero number;
    what the event does not carry keeps its local value, and nothing else in
    the state changes.  An event for any other id leaves the state as it
    was.  (A population of 0 is neither promised nor denied here.) *)
Theorem handlePlayerUpdated_applies (g : Game) (data : PlayerUpdated)
    (id : string) :
  socket g = Some id →
  ∃ g', handlePlayerUpdated g data = Some g'
    ∧ (pu_playerId data ≠ id → g' = g)
    ∧ (pu_playerId data = id →
         match pu_resources data with
         | Some r => resources g' = r
         | None => resources g' = resources g
         end
         ∧ match pu_population data with
           | Some p => p ≠ 0 → population g' = p
           | None => population g' = population g
           end
         ∧ match pu_scouts data with
           | Some s => scouts g' = s
           | None => scouts g' = scouts g
           end
         ∧ g' = set_scouts (scouts g')
                  (set_population (population g')
                     (set_resources (resources g') g))).
Proof.
  intros Hsock. unfold handlePlayerUpdated. rewrite Hsock.
  case_bool_decide as Hid.
  - eexists. split; [reflexivity|]. split; [done|]. intros _.
    destruct data as [pid [r|] [p|] [s|]], g; cbn; unfold truthyNumber;
      try destruct (Z.eqb_spec p 0); cbn; split_and!; done.
  - exists g. by split_and!.
Qed.

Lemma handlePlayerUpdated_applies_witness :
  socket scoutingGame = Some "me"
  ∧ ∃ g', handlePlayerUpdated scoutingGame resourcesOnlyUpdate = Some g'
          ∧ resources g' = mkResources 90 45 25 12
          ∧ population g' = 5
          ∧ scouts g' = [mkScout 1 40 60 false None].
Proof.
  destruct (handlePlayerUpdated_applies scoutingGame resourcesOnlyUpdate
              "me" eq_refl) as (g' & Hrun & _ & Hlocal).
  destruct (Hlocal eq_refl) as (Hr & Hp & Hs & _).
  split; [reflexivity|]. exists g'. split_and!; assumption.
Defined.

(** A population of 0 in the event is falsy for [if (population)]: the local
    population stays. *)
Example handlePlayerUpdated_zero_population :
  population <$> handlePlayerUpdated scoutingGame
                   (mkPlayerUpdated "me" None (Some 0) None)
  = Some 5.
Proof. reflexivity. Qed.

(** C5 as stated fails: an event for the local player that carries only
    resources leaves the local population and scouts in place, so the three
    are not the event's payload. *)
Lemma handlePlayerUpdated_merge_counterexample :
  socket scoutingGame = Some (pu_playerId resourcesOnlyUpdate)
  ∧ ∃ g', handlePlayerUpdated scoutingGame resourcesOnlyUpdate = Some g'
          ∧ population g' = population scoutingGame
          ∧ scouts g' = scouts scoutingGame
          ∧ ¬ replacedOutright resourcesOnlyUpdate g'.
Proof.
  split; [reflexivity|]. eexists. split; [reflexivity|].
  split_and!; try reflexivity.
  intros (_ & Hp & _). discriminate.
Qed.

(** ** Fog raster engine: the gradient *)

Lemma Qltb_true (a b : Q) : Qltb a b = true ↔ (a < b)%Q.
Proof.
  unfold Qltb. rewrite negb_true_iff. split.
  - intros H. apply Qnot_le_lt. intros Hle.
    apply Qle_bool_iff in Hle. congruence.
  - intros H. destruct (Qle_bool b a) eqn:E; [|done].
    apply Qle_bool_iff in E. exfalso. by eapply Qlt_not_le.
Qed.

Lemma Qle_bool_false (a b : Q) : Qle_bool a b = false → (b < a)%Q.
Proof.
  intros H. apply Qnot_le_lt. intros Hle.
  apply Qle_bool_iff in Hle. congruence.
Qed.

Lemma gradientAlpha_range (w : Q) : (0 <= gradientAlpha w <= 9 # 10)%Q.
Proof.
  unfold gradientAlpha. destruct (Qle_bool w 0) eqn:E0; [split; lra|].
  apply Qle_bool_false in E0. cbn [interpolate fst snd].
  destruct (Qle_bool w (7 # 10)) eqn:E1.
  { apply Qle_bool_iff in E1.
    assert (E : ((w - 0) / ((7 # 10) - 0) == w * (10 # 7))%Q) by field.
    rewrite E. split; lra. }
  apply Qle_bool_false in E1.
  destruct (Qle_bool w 1) eqn:E2; [|split; lra].
  apply Qle_bool_iff in E2.
  assert (E : ((w - (7 # 10)) / (1 - (7 # 10))
               == (w - (7 # 10)) * (10 # 3))%Q) by field.
  rewrite E. split; lra.
Qed.

Lemma fillAlpha_range (lx ly r : Q) (px py : Z) :
  (0 <= fillAlpha lx ly r px py <= 9 # 10)%Q.
Proof.
  unfold fillAlpha. case_match; [apply gradientAlpha_range | split; lra].
Qed.

(** ** Fog raster engine: the list of animations *)

Lemma sameReveal_refl (l : list Anim) : Forall2 sameReveal l l.
Proof. induction l; constructor; [by repeat split | done]. Qed.

Lemma sameReveal_trans (a b c : Anim) :
  sameReveal a b → sameReveal b c → sameReveal a c.
Proof.
  unfold sameReveal.
  intros (? & ? & ? & ? & ? & ? & ?) (? & ? & ? & ? & ? & ? & ?).
  split_and!; congruence.
Qed.

Lemma sameReveal_lists_trans (l1 l2 l3 : list Anim) :
  Forall2 sameReveal l1 l2 → Forall2 sameReveal l2 l3 →
  Forall2 sameReveal l1 l3.
Proof. apply Forall2_trans, sameReveal_trans. Qed.

Lemma sameReveal_animKey (a b : Anim) : sameReveal a b → animKey a = animKey b.
Proof.
  intros (_ & _ & _ & _ & _ & Hx & Hy). unfold animKey. by rewrite Hx, Hy.
Qed.

Lemma animProgress_sameReveal now (a b : Anim) :
  sameReveal a b → animProgress now a = animProgress now b.
Proof.
  destruct a, b. intros (? & ? & ? & ? & ? & ? & ?). cbn in *. by subst.
Qed.

Lemma alive_cons now (a : Anim) (l : list Anim) :
  alive now (a :: l)
  = if Qltb (animProgress now a) 1 then a :: alive now l else alive now l.
Proof.
  unfold alive. rewrite filter_cons.
  destruct (Qltb (animProgress now a) 1); by case_decide.
Qed.

Lemma alive_app now (l1 l2 : list Anim) :
  alive now (l1 ++ l2) = alive now l1 ++ alive now l2.
Proof. apply filter_app. Qed.

Lemma alive_sameReveal now (l l' : list Anim) :
  Forall2 sameReveal l l' → Forall2 sameReveal (alive now l) (alive now l').
Proof.
  induction 1 as [|a b l l' Hab _ IH]; [constructor|].
  rewrite !alive_cons, (animProgress_sameReveal now a b Hab).
  case_match; [by constructor | done].
Qed.

Lemma aliveAfter_nil (times : list Z) : aliveAfter times [] = [].
Proof. by induction times. Qed.

(** Shifting an animation and the clock together changes nothing. *)
Lemma animProgress_shift (s now : Z) (a : Anim) :
  animProgress (s + now) (shiftAnim s a) = animProgress now a.
Proof.
  unfold animProgress, shiftAnim. cbn.
  by replace (s + now - (anim_startTime a + s)) with (now - anim_startTime a)
    by lia.
Qed.

Lemma alive_shift (s now : Z) (l : list Anim) :
  alive (s + now) (shiftAnim s <$> l) = shiftAnim s <$> alive now l.
Proof.
  induction l as [|a l IH]; [done|].
  rewrite fmap_cons, !alive_cons, animProgress_shift, IH. by case_match.
Qed.

Lemma aliveAfter_shift (s : Z) (l : list Anim) elapsed :
  aliveAfter ((fun e => s + e) <$> elapsed) (shiftAnim s <$> l)
  = shiftAnim s <$> aliveAfter elapsed l.
Proof.
  revert l. unfold aliveAfter.
  induction elapsed as [|e es IH]; intros l; [done|].
  cbn. rewrite alive_shift. apply IH.
Qed.

(** An animation of 800 ms is dropped by the first tick at least 800 ms
    after its start. *)
Lemma animProgress_lt_1 (now : Z) (a : Anim) :
  anim_duration a = 800 →
  (Qltb (animProgress now a) 1 = true ↔ now - anim_startTime a < 800).
Proof.
  intros Hd. rewrite Qltb_true. unfold animProgress. rewrite Hd.
  set (e := now - anim_startTime a).
  rewrite Q.min_lt_iff, Zlt_Qlt. split.
  - intros [H | H]; [|by apply Qlt_irrefl in H].
    assert (E : (inject_Z e
                 == inject_Z e / inject_Z 800 * inject_Z 800)%Q)
      by (field; discriminate).
    rewrite E.
    apply (Qmult_lt_compat_r _ 1 (inject_Z 800)) in H; [|reflexivity].
    by rewrite Qmult_1_l in H.
  - intros H. left. apply Qlt_shift_div_r; [reflexivity|].
    by rewrite Qmult_1_l.
Qed.

Lemma aliveAfter_completes (elapsed : list Z) (l : list Anim) :
  completes elapsed →
  Forall (fun a => anim_duration a = 800 ∧ anim_startTime a = 0) l →
  aliveAfter elapsed l = [].
Proof.
  intros Hc. revert l. induction Hc as [e es He|e es _ IH]; intros l Hl.
  - cbn. replace (alive e l) with (@nil Anim); [apply aliveAfter_nil|].
    symmetry. induction Hl as [|a l [Hd Hs] _ IHl]; [done|].
    rewrite alive_cons.
    destruct (Qltb (animProgress e a) 1) eqn:Hp; [|done].
    apply animProgress_lt_1 in Hp; [lia | done].
  - cbn. apply IH. induction Hl as [|a l Ha _ IHl]; [done|].
    rewrite alive_cons. case_match; [by constructor | done].
Qed.

(** ** Fog raster engine: the factors *)

Create HintDb fog.

Section Factors.
Context (size : Z) (chunks : gmap string Chunk).

Lemma tickFactor_cons now (a : Anim) (l : list Anim) key px py :
  tickFactor size chunks now (a :: l) key px py
  = (animFactor size chunks now a key px py
     * tickFactor size chunks now l key px py)%Q.
Proof. reflexivity. Qed.

Lemma animFactor_range now a key px py :
  (0 <= animFactor size chunks now a key px py <= 1)%Q.
Proof.
  unfold animFactor. repeat case_match; try (split; lra).
  match goal with
  | |- context [fillAlpha ?lx ?ly ?r ?px ?py] =>
      pose proof (fillAlpha_range lx ly r px py)
  end.
  split; lra.
Qed.

Lemma tickFactor_range now anims key px py :
  (0 <= tickFactor size chunks now anims key px py <= 1)%Q.
Proof.
  induction anims as [|a l IH]; [cbn; split; lra|].
  rewrite tickFactor_cons.
  pose proof (animFactor_range now a key px py). split; nra.
Qed.

Lemma runFactor_range anims times key px py :
  (0 <= runFactor size chunks anims times key px py <= 1)%Q.
Proof.
  revert anims. induction times as [|t ts IH]; intros anims; cbn;
    [split; lra|].
  pose proof (tickFactor_range t anims key px py).
  pose proof (IH (alive t anims)). split; nra.
Qed.

(** The factors do not read the current radius of an animation. *)
Lemma animFactor_sameReveal now (a b : Anim) key px py :
  sameReveal a b →
  animFactor size chunks now a key px py
  = animFactor size chunks now b key px py.
Proof.
  destruct a, b. intros (? & ? & ? & ? & ? & ? & ?). cbn in *. by subst.
Qed.

Lemma tickFactor_sameReveal now (l l' : list Anim) key px py :
  Forall2 sameReveal l l' →
  tickFactor size chunks now l key px py
  = tickFactor size chunks now l' key px py.
Proof.
  induction 1 as [|a b l l' Hab _ IH]; [done|].
  by rewrite !tickFactor_cons, IH, (animFactor_sameReveal _ a b).
Qed.

Lemma runFactor_sameReveal (l l' : list Anim) times key px py :
  Forall2 sameReveal l l' →
  runFactor size chunks l times key px py
  = runFactor size chunks l' times key px py.
Proof.
  revert l l'. induction times as [|t ts IH]; intros l l' Hl; [done|].
  cbn. rewrite (tickFactor_sameReveal _ l l') by done.
  by rewrite (IH (alive t l) (alive t l')) by by apply alive_sameReveal.
Qed.

(** Animations erase independently of one another: the factor of two groups
    of animations is the product of the factors of the groups. *)
Lemma tickFactor_app now (l1 l2 : list Anim) key px py :
  (tickFactor size chunks now (l1 ++ l2) key px py
   == tickFactor size chunks now l1 key px py
      * tickFactor size chunks now l2 key px py)%Q.
Proof.
  induction l1 as [|a l1 IH].
  - cbn [app]. change (tickFactor size chunks now [] key px py) with 1%Q.
    ring.
  - rewrite <- app_comm_cons, !tickFactor_cons, IH. ring.
Qed.

Lemma runFactor_app (l1 l2 : list Anim) times key px py :
  (runFactor size chunks (l1 ++ l2) times key px py
   == runFactor size chunks l1 times key px py
      * runFactor size chunks l2 times key px py)%Q.
Proof.
  revert l1 l2. induction times as [|t ts IH]; intros l1 l2; cbn; [ring|].
  rewrite alive_app, IH, tickFactor_app. ring.
Qed.

Lemma animFactor_shift (s now : Z) (a : Anim) key px py :
  animFactor size chunks (s + now) (shiftAnim s a) key px py
  = animFactor size chunks now a key px py.
Proof.
  unfold animFactor. rewrite animProgress_shift. by destruct a.
Qed.

Lemma tickFactor_shift (s now : Z) (l : list Anim) key px py :
  tickFactor size chunks (s + now) (shiftAnim s <$> l) key px py
  = tickFactor size chunks now l key px py.
Proof.
  induction l as [|a l IH]; [done|].
  by rewrite fmap_cons, !tickFactor_cons, IH, animFactor_shift.
Qed.

Lemma runFactor_shift (s : Z) (l : list Anim) elapsed key px py :
  runFactor size chunks (shiftAnim s <$> l) ((fun e => s + e) <$> elapsed)
    key px py
  = runFactor size chunks l elapsed key px py.
Proof.
  revert l. induction elapsed as [|e es IH]; intros l; [done|].
  cbn. by rewrite tickFactor_shift, alive_shift, IH.
Qed.

End Factors.

#[local] Hint Resolve animFactor_range tickFactor_range runFactor_range : fog.

(** ** Fog raster engine: scaling of the masks *)

Lemma fogScaled_refl (f : gmap string Canvas) :
  fogScaled (fun _ _ _ => 1%Q) f f.
Proof. intros key. destruct (f !! key); [|done]. intros px py. ring. Qed.

Lemma fogScaled_trans F G (f0 f1 f2 : gmap string Canvas) :
  fogScaled F f0 f1 → fogScaled G f1 f2 →
  fogScaled (fun k px py => (F k px py * G k px py)%Q) f0 f2.
Proof.
  intros H1 H2 key. specialize (H1 key). specialize (H2 key).
  destruct (f0 !! key), (f1 !! key), (f2 !! key); try done.
  intros px py. rewrite H2, H1. ring.
Qed.

Lemma fogScaled_ext F G (f f' : gmap string Canvas) :
  (∀ k px py, (F k px py == G k px py)%Q) →
  fogScaled F f f' → fogScaled G f f'.
Proof.
  intros HFG H key. specialize (H key).
  destruct (f !! key), (f' !! key); try done.
  intros px py. by rewrite H, HFG.
Qed.

Lemma fogScaled_keys F (f f' : gmap string Canvas) (key : string) :
  fogScaled F f f' → (f' !! key = None ↔ f !! key = None).
Proof.
  intros H. specialize (H key). by destruct (f !! key), (f' !! key).
Qed.

Lemma fogScaled_equiv F G (f f1 f2 : gmap string Canvas) :
  (∀ k px py, (F k px py == G k px py)%Q) →
  fogScaled F f f1 → fogScaled G f f2 → fogEquiv f1 f2.
Proof.
  intros HFG H1 H2 key. specialize (H1 key). specialize (H2 key).
  destruct (f !! key), (f1 !! key), (f2 !! key); try done.
  intros px py. by rewrite H1, H2, HFG.
Qed.

(** What is left of [f] after the factor [F] differs from what is left
    after [F * G] by the factor [G]. *)
Lemma fogScaled_quotient F G (f f1 f2 : gmap string Canvas) :
  fogScaled F f f1 →
  fogScaled (fun k px py => (F k px py * G k px py)%Q) f f2 →
  fogScaled G f1 f2.
Proof.
  intros H1 H2 key. specialize (H1 key). specialize (H2 key).
  destruct (f !! key), (f1 !! key), (f2 !! key); try done.
  intros px py. rewrite H2, H1. ring.
Qed.

(** Scaling by factors between 0 and 1 keeps a store well formed and never
    raises an opacity. *)
Lemma fogScaled_le F (f f' : gmap string Canvas) :
  (∀ k px py, (0 <= F k px py <= 1)%Q) →
  fogWellFormed f → fogScaled F f f' →
  fogWellFormed f'
  ∧ ∀ key m', f' !! key = Some m' →
      ∃ m, f !! key = Some m ∧ ∀ px py, (0 <= m' px py <= m px py)%Q.
Proof.
  intros HF Hwf H.
  assert (Hle : ∀ key m', f' !! key = Some m' →
      ∃ m, f !! key = Some m ∧ ∀ px py, (0 <= m' px py <= m px py)%Q).
  { intros key m' Hm'. specialize (H key). rewrite Hm' in H.
    destruct (f !! key) as [m|] eqn:Hm; [|done].
    exists m. split; [done|]. intros px py.
    pose proof (Hwf key m Hm px py). pose proof (HF key px py).
    rewrite (H px py). split; nra. }
  split; [|done]. intros key m' Hm' px py.
  destruct (Hle key m' Hm') as (m & Hm & Hb).
  pose proof (Hwf key m Hm px py). pose proof (Hb px py). split; lra.
Qed.

(** ** Fog raster engine: one tick *)

Lemma tickAnim_result (now : Z) (g : Game) (a : Anim) :
  sameReveal (tickAnim now g a).1.2 a
  ∧ (tickAnim now g a).2 = Qltb (animProgress now a) 1.
Proof. by destruct a. Qed.

Lemma tickAnim_terrain (now : Z) (g : Game) (a : Anim) :
  loadedChunks (tickAnim now g a).1.1 = loadedChunks g
  ∧ chunkSize (tickAnim now g a).1.1 = chunkSize g.
Proof.
  unfold tickAnim. cbn [fst snd]. by repeat case_match.
Qed.

(** The callback draws on the mask of the animation's own chunk only. *)
Lemma tickAnim_other (now : Z) (g : Game) (a : Anim) (key : string) :
  key ≠ animKey a →
  fogOfWar (tickAnim now g a).1.1 !! key = fogOfWar g !! key.
Proof.
  intros Hne. unfold tickAnim. cbn [fst snd].
  repeat case_match; try done. cbn. by rewrite lookup_insert_ne.
Qed.

Lemma tickAnim_fog (now : Z) (g : Game) (a : Anim) :
  fogScaled (animFactor (chunkSize g) (loadedChunks g) now a)
    (fogOfWar g) (fogOfWar (tickAnim now g a).1.1).
Proof.
  intros key. unfold animFactor. case_decide as Hkey.
  - subst key. unfold tickAnim, animKey. cbn [fst snd].
    change (anim_chunkX (set_radius _ a)) with (anim_chunkX a).
    change (anim_chunkY (set_radius _ a)) with (anim_chunkY a).
    change (anim_x (set_radius _ a)) with (anim_x a).
    change (anim_y (set_radius _ a)) with (anim_y a).
    change (anim_radius (set_radius ?r a)) with r.
    destruct (fogOfWar g !! getChunkKey (anim_chunkX a) (anim_chunkY a))
      as [m|] eqn:Hm; [|by rewrite Hm].
    destruct (loadedChunks g !! getChunkKey (anim_chunkX a) (anim_chunkY a))
      as [chunk|] eqn:Hc.
    + unfold isFinite. cbn [andb].
      destruct (Qltb 0 _) eqn:Hr.
      * cbn. rewrite lookup_insert_eq. intros px py.
        unfold destinationOut. cbn [andb].
        destruct (inCanvas (chunkSize g) px py); [reflexivity | ring].
      * rewrite Hm. intros px py. cbn [andb]. ring.
    + rewrite Hm. intros px py. ring.
  - rewrite tickAnim_other by done.
    destruct (fogOfWar g !! key); [|done]. intros px py. ring.
Qed.

(** The loop of one tick, from any point of the iteration. *)
Lemma tickLoop_spec (now : Z) (l : list Anim) (g : Game) (kept : list Anim) :
  let r := foldl (tickStep now) (g, kept) l in
  loadedChunks r.1 = loadedChunks g
  ∧ chunkSize r.1 = chunkSize g
  ∧ fogScaled (tickFactor (chunkSize g) (loadedChunks g) now l)
      (fogOfWar g) (fogOfWar r.1)
  ∧ ∃ more, r.2 = kept ++ more ∧ Forall2 sameReveal more (alive now l).
Proof.
  revert g kept. induction l as [|a l IH]; intros g kept.
  - cbn. split_and!; [done | done | apply fogScaled_refl |].
    exists []. by rewrite app_nil_r.
  - change (foldl (tickStep now) (g, kept) (a :: l))
      with (foldl (tickStep now)
              ((tickAnim now g a).1.1,
               if (tickAnim now g a).2
               then kept ++ [(tickAnim now g a).1.2] else kept) l).
    destruct (tickAnim_terrain now g a) as [Hc Hs].
    destruct (tickAnim_result now g a) as [Hsame Hkeep].
    specialize (IH (tickAnim now g a).1.1
                  (if (tickAnim now g a).2
                   then kept ++ [(tickAnim now g a).1.2] else kept)).
    cbn zeta in IH. destruct IH as (IHc & IHs & IHf & more & IHk & IHm).
    rewrite Hc, Hs in *. split_and!; [done | done | |].
    + eapply fogScaled_trans; [apply tickAnim_fog | exact IHf].
    + rewrite IHk, alive_cons, Hkeep.
      destruct (Qltb (animProgress now a) 1).
      * exists ((tickAnim now g a).1.2 :: more).
        split; [by rewrite <- app_assoc | by constructor].
      * by exists more.
Qed.

Lemma updateRevealAnimations_spec (g : Game) (now : Z) :
  let g' := updateRevealAnimations g now in
  loadedChunks g' = loadedChunks g
  ∧ chunkSize g' = chunkSize g
  ∧ fogScaled (tickFactor (chunkSize g) (loadedChunks g) now
                 (revealAnimations g))
      (fogOfWar g) (fogOfWar g')
  ∧ Forall2 sameReveal (revealAnimations g')
      (alive now (revealAnimations g)).
Proof.
  pose proof (tickLoop_spec now (revealAnimations g) g [])
    as (Hc & Hs & Hf & more & Hk & Hm).
  unfold updateRevealAnimations. cbn. rewrite Hk. by split_and!.
Qed.

(** ** Fog raster engine: runs of ticks *)

Lemma runTicks_spec (times : list Z) (g : Game) (anims : list Anim) :
  Forall2 sameReveal (revealAnimations g) anims →
  let g' := runTicks g times in
  loadedChunks g' = loadedChunks g
  ∧ chunkSize g' = chunkSize g
  ∧ fogScaled (runFactor (chunkSize g) (loadedChunks g) anims times)
      (fogOfWar g) (fogOfWar g')
  ∧ Forall2 sameReveal (revealAnimations g') (aliveAfter times anims).
Proof.
  revert g anims. induction times as [|t ts IH]; intros g anims Hl.
  - cbn. split_and!; [done | done | apply fogScaled_refl | done].
  - cbn [runTicks foldl aliveAfter runFactor].
    destruct (updateRevealAnimations_spec g t) as (Hc & Hs & Hf & Ha).
    assert (Hl' : Forall2 sameReveal
                    (revealAnimations (updateRevealAnimations g t))
                    (alive t anims)).
    { eapply sameReveal_lists_trans; [exact Ha|]. by apply alive_sameReveal. }
    destruct (IH _ _ Hl') as (IHc & IHs & IHf & IHa).
    rewrite Hc, Hs in *. split_and!; [done | done | | done].
    eapply fogScaled_trans; [|exact IHf].
    eapply fogScaled_ext; [|exact Hf].
    intros k px py. by rewrite (tickFactor_sameReveal _ _ _ _ anims).
Qed.

(** ** Fog raster engine: registering a reveal *)

Lemma revealArea_spec (g : Game) (x y radius : Q) (start : Z) :
  let g' := revealArea g x y radius start in
  fogOfWar g' = fogOfWar g
  ∧ loadedChunks g' = loadedChunks g
  ∧ chunkSize g' = chunkSize g
  ∧ revealAnimations g' = revealAnimations g ++ newAnims g x y radius start.
Proof.
  unfold revealArea, newAnims. cbn zeta.
  destruct (fogOfWar g !! _); cbn; by rewrite ?app_nil_r.
Qed.

Lemma newAnims_shift (g : Game) (x y radius : Q) (start : Z) :
  newAnims g x y radius start = shiftAnim start <$> newAnims g x y radius 0.
Proof. unfold newAnims. cbn zeta. by destruct (fogOfWar g !! _). Qed.

Lemma newAnims_shape (g : Game) (x y radius : Q) (start : Z) :
  Forall (fun a => anim_duration a = 800 ∧ anim_startTime a = start
                   ∧ animKey a = getChunkKey (getChunkCoords g x y).1
                                             (getChunkCoords g x y).2)
         (newAnims g x y radius start).
Proof.
  unfold newAnims. cbn zeta. destruct (fogOfWar g !! _); by repeat constructor.
Qed.

Lemma newAnims_ext (g g' : Game) (x y radius : Q) (start : Z) :
  chunkSize g' = chunkSize g →
  (∀ key, fogOfWar g' !! key = None ↔ fogOfWar g !! key = None) →
  newAnims g' x y radius start = newAnims g x y radius start.
Proof.
  intros Hs Hk. unfold newAnims, getChunkCoords. rewrite Hs. cbn zeta.
  match goal with |- context [fogOfWar g' !! ?k] => specialize (Hk k) end.
  destruct (fogOfWar g' !! _), (fogOfWar g !! _); try done.
  - by pose proof (proj2 Hk eq_refl).
  - by pose proof (proj1 Hk eq_refl).
Qed.

Lemma revealFactor_ext (g g' : Game) (x y radius : Q) (elapsed : list Z) :
  chunkSize g' = chunkSize g → loadedChunks g' = loadedChunks g →
  (∀ key, fogOfWar g' !! key = None ↔ fogOfWar g !! key = None) →
  revealFactor g' x y radius elapsed = revealFactor g x y radius elapsed.
Proof.
  intros Hs Hc Hk. unfold revealFactor.
  by rewrite Hs, Hc, (newAnims_ext g g') by done.
Qed.

(** One reveal, alone, run to completion. *)
Lemma revealAndRun_spec (g : Game) (x y radius : Q) (start : Z)
    (elapsed : list Z) :
  revealAnimations g = [] → completes elapsed →
  let g' := revealAndRun g x y radius start elapsed in
  loadedChunks g' = loadedChunks g
  ∧ chunkSize g' = chunkSize g
  ∧ fogScaled (revealFactor g x y radius elapsed) (fogOfWar g) (fogOfWar g')
  ∧ revealAnimations g' = [].
Proof.
  intros Hnil Hdone. unfold revealAndRun.
  destruct (revealArea_spec g x y radius start) as (Hf & Hc & Hs & Ha).
  rewrite Hnil, app_nil_l in Ha.
  pose proof (runTicks_spec ((fun e => start + e) <$> elapsed)
                (revealArea g x y radius start)
                (newAnims g x y radius start)) as Hrun.
  rewrite Ha in Hrun. specialize (Hrun (sameReveal_refl _)). cbn zeta in Hrun.
  destruct Hrun as (Hc' & Hs' & Hf' & Ha').
  rewrite Hc, Hs, Hf in *. split_and!; [done | done | |].
  - eapply fogScaled_ext; [|exact Hf']. intros k px py. unfold revealFactor.
    by rewrite newAnims_shift, runFactor_shift.
  - rewrite newAnims_shift, aliveAfter_shift in Ha'.
    rewrite aliveAfter_completes in Ha'.
    + by apply Forall2_nil_inv_r in Ha'.
    + done.
    + eapply Forall_impl; [apply newAnims_shape|]. naive_solver.
Qed.

(** ** Fog raster engine: masks that a run does not touch *)

Lemma tickLoop_other (now : Z) (key : string) (l : list Anim) (g : Game)
    (kept : list Anim) :
  Forall (fun a => animKey a ≠ key) l →
  fogOfWar (foldl (tickStep now) (g, kept) l).1 !! key = fogOfWar g !! key.
Proof.
  intros Hl. revert g kept. induction Hl as [|a l Ha _ IH]; intros g kept.
  - done.
  - cbn [foldl]. unfold tickStep at 2. rewrite IH. cbn [fst].
    by apply tickAnim_other.
Qed.

Lemma runTicks_other (key : string) (times : list Z) (g : Game) :
  Forall (fun a => animKey a ≠ key) (revealAnimations g) →
  fogOfWar (runTicks g times) !! key = fogOfWar g !! key.
Proof.
  revert g. induction times as [|t ts IH]; intros g Hl; [done|].
  cbn [runTicks foldl]. fold (runTicks (updateRevealAnimations g t) ts).
  rewrite IH.
  - unfold updateRevealAnimations. cbn. by apply tickLoop_other.
  - destruct (updateRevealAnimations_spec g t) as (_ & _ & _ & Ha).
    eapply Forall2_Forall_l; [exact Ha|].
    apply Forall_forall. intros b [_ Hb]%list_elem_of_filter a Hab.
    rewrite (sameReveal_animKey a b Hab).
    by apply (proj1 (Forall_forall _ _) Hl).
Qed.

(** ** Fog raster engine: well-formed stores *)

Lemma freshFog_range (size px py : Z) : (0 <= freshFog size px py <= 1)%Q.
Proof. unfold freshFog. case_match; split; lra. Qed.

Lemma fogWellFormed_insert (f : gmap string Canvas) (key : string)
    (m : Canvas) :
  fogWellFormed f → (∀ px py, (0 <= m px py <= 1)%Q) →
  fogWellFormed (<[key := m]> f).
Proof.
  intros Hf Hm k m' Hk. destruct (decide (key = k)) as [-> | Hne].
  - rewrite lookup_insert_eq in Hk. by simplify_eq.
  - rewrite lookup_insert_ne in Hk by done. by eapply Hf.
Qed.

Lemma storeChunk_fog (g : Game) (entry : string * Chunk) :
  let g' := storeChunk g entry in
  chunkSize g' = chunkSize g
  ∧ (fogWellFormed (fogOfWar g) → fogWellFormed (fogOfWar g'))
  ∧ (∀ key m', fogOfWar g' !! key = Some m' →
       fogOfWar g !! key = Some m' ∨ m' = freshFog (chunkSize g))
  ∧ (entry.1 = getChunkKey (chunk_x entry.2) (chunk_y entry.2) →
     ∀ key m, fogOfWar g !! key = Some m → fogOfWar g' !! key = Some m).
Proof.
  unfold storeChunk. cbn zeta. cbn [fogOfWar set_loadedChunks].
  case_bool_decide as Hhas; cbn.
  - split_and!; [done | done | by left | done].
  - split_and!; [done | | |].
    + intros Hwf. apply fogWellFormed_insert; [done|]. apply freshFog_range.
    + intros key m' Hk.
      destruct (decide (getChunkKey (chunk_x entry.2) (chunk_y entry.2) = key))
        as [<- | Hne].
      * rewrite lookup_insert_eq in Hk. right. by simplify_eq.
      * rewrite lookup_insert_ne in Hk by done. by left.
    + intros <- key m Hk. rewrite lookup_insert_ne; [done|].
      intros <-. apply Hhas. by rewrite Hk.
Qed.

Lemma handleChunksData_fog (chunks : list (string * Chunk)) (g : Game) :
  let g' := handleChunksData g chunks in
  chunkSize g' = chunkSize g
  ∧ (fogWellFormed (fogOfWar g) → fogWellFormed (fogOfWar g'))
  ∧ (∀ key m', fogOfWar g' !! key = Some m' →
       fogOfWar g !! key = Some m' ∨ m' = freshFog (chunkSize g))
  ∧ (Forall (fun e => e.1 = getChunkKey (chunk_x e.2) (chunk_y e.2)) chunks →
     ∀ key m, fogOfWar g !! key = Some m → fogOfWar g' !! key = Some m).
Proof.
  revert g. induction chunks as [|e l IH]; intros g.
  - cbn. split_and!; [done | done | by left | done].
  - cbn [handleChunksData foldl]. fold (handleChunksData (storeChunk g e) l).
    destruct (storeChunk_fog g e) as (Hs & Hwf & Hk & Hkeep).
    destruct (IH (storeChunk g e)) as (IHs & IHwf & IHk & IHkeep).
    cbn zeta in *. rewrite Hs in *. split_and!; [done | auto | |].
    + intros key m' Hm'. destruct (IHk key m' Hm') as [Hprev | ->]; [|by right].
      by apply Hk.
    + intros Hall key m Hm. inv Hall. apply IHkeep; [done|]. by apply Hkeep.
Qed.


Lemma fogWellFormed_foggedGame : fogWellFormed (fogOfWar foggedGame).
Proof.
  apply (handleChunksData_fog [("0,0", mkChunk 0 0 0 0)]
           (onlineGame "me" 800 600)).
  intros key m Hk. cbn in Hk. by rewrite lookup_empty in Hk.
Qed.

(** ** Fog raster engine: reveals, deliveries and restores *)

(** C2, as the code has it.  Registering the same reveal a second time
    (at the same instant or later) and running the ticks leaves, in every
    cell of every mask, the opacity that one registration leaves multiplied
    once more by the factor of the second reveal, a number between 0 and 1:
    the second reveal erases again, so the result is at most, and in general
    not equal to, the result of a single reveal. *)
Theorem reveal_twice_erases_again (g : Game) (x y radius : Q)
    (start start' : Z) (times : list Z) :
  fogWellFormed (fogOfWar g) →
  let once := runTicks (revealArea g x y radius start) times in
  let twice :=
    runTicks (revealArea (revealArea g x y radius start) x y radius start')
      times in
  let F := runFactor (chunkSize g) (loadedChunks g)
             (newAnims g x y radius start') times in
  (∀ key px py, (0 <= F key px py <= 1)%Q)
  ∧ fogScaled F (fogOfWar once) (fogOfWar twice)
  ∧ ∀ key m2, fogOfWar twice !! key = Some m2 →
      ∃ m1, fogOfWar once !! key = Some m1
            ∧ ∀ px py, (0 <= m2 px py <= m1 px py)%Q.
Proof.
  intros Hwf once twice F.
  destruct (revealArea_spec g x y radius start) as (Hf1 & Hc1 & Hs1 & Ha1).
  destruct (revealArea_spec (revealArea g x y radius start) x y radius start')
    as (Hf2 & Hc2 & Hs2 & Ha2).
  rewrite (newAnims_ext g) in Ha2 by (by rewrite ?Hs1, ?Hf1).
  rewrite Ha1 in Ha2. rewrite Hf1, Hc1, Hs1 in *.
  destruct (runTicks_spec times (revealArea g x y radius start) _
              (sameReveal_refl _)) as (_ & _ & Hrun1 & _).
  destruct (runTicks_spec times
              (revealArea (revealArea g x y radius start) x y radius start') _
              (sameReveal_refl _)) as (_ & _ & Hrun2 & _).
  rewrite ?Hf1, ?Hc1, ?Hs1, ?Hf2, ?Hc2, ?Hs2, ?Ha1, ?Ha2 in *.
  fold once in Hrun1. fold twice in Hrun2.
  assert (HF : ∀ key px py, (0 <= F key px py <= 1)%Q)
    by (unfold F; auto with fog).
  assert (Hq : fogScaled F (fogOfWar once) (fogOfWar twice)).
  { eapply fogScaled_quotient; [exact Hrun1|].
    eapply fogScaled_ext; [|exact Hrun2].
    intros k px py. apply runFactor_app. }
  split_and!; [done | done |].
  eapply fogScaled_le; [exact HF | | exact Hq].
  eapply fogScaled_le; [| exact Hwf | exact Hrun1]. auto with fog.
Qed.

Lemma reveal_twice_erases_again_witness :
  fogWellFormed (fogOfWar foggedGame)
  ∧ ∀ key m2,
      fogOfWar (runTicks (revealArea (revealArea foggedGame (513 # 2)
                                        (513 # 2) 100 0)
                            (513 # 2) (513 # 2) 100 3) [400; 800; 816])
        !! key = Some m2 →
      ∃ m1, fogOfWar (runTicks (revealArea foggedGame (513 # 2) (513 # 2)
                                  100 0) [400; 800; 816]) !! key = Some m1
            ∧ ∀ px py, (0 <= m2 px py <= m1 px py)%Q.
Proof.
  split; [exact fogWellFormed_foggedGame|].
  apply (reveal_twice_erases_again foggedGame (513 # 2) (513 # 2) 100 0 3
           [400; 800; 816] fogWellFormed_foggedGame).
Defined.

(** C2 as stated fails: on a fully fogged resident chunk, one reveal run to
    completion leaves the centre pixel at opacity 0.09, the same reveal
    applied twice leaves it at 0.009. *)
Lemma reveal_twice_counterexample :
  let once :=
    runTicks (revealArea foggedGame (513 # 2) (513 # 2) 100 0) [800] in
  let twice :=
    runTicks (revealArea (revealArea foggedGame (513 # 2) (513 # 2) 100 0)
                (513 # 2) (513 # 2) 100 0) [800] in
  is_Some (loadedChunks foggedGame !! "0,0")
  ∧ getChunkCoords foggedGame (513 # 2) (513 # 2) = (0, 0)
  ∧ revealAnimations once = [] ∧ revealAnimations twice = []
  ∧ ∃ q1 q2, opacityAt once "0,0" 256 256 = Some q1
             ∧ opacityAt twice "0,0" 256 256 = Some q2
             ∧ (q1 == 9 # 100)%Q ∧ (q2 == 9 # 1000)%Q ∧ ¬ (q1 == q2)%Q.
Proof.
  cbn zeta. split_and!; [by eexists | reflexivity | reflexivity | reflexivity |].
  eexists _, _. split_and!; [vm_compute; reflexivity .. |]. discriminate.
Qed.





(** C8. Two reveals, each run alone to completion on its own schedule of
    ticks, leave the same opacity in every cell of every mask whichever of
    the two is applied first, whether they fall in the same chunk or in
    different ones; no animation is left over either way. *)
Theorem reveals_commute (g : Game) (xa ya ra xb yb rb : Q)
    (sa sb sa' sb' : Z) (ea eb : list Z) :
  revealAnimations g = [] → completes ea → completes eb →
  let ab := revealAndRun (revealAndRun g xa ya ra sa ea) xb yb rb sb eb in
  let ba := revealAndRun (revealAndRun g xb yb rb sb' eb) xa ya ra sa' ea in
  fogEquiv (fogOfWar ab) (fogOfWar ba)
  ∧ revealAnimations ab = [] ∧ revealAnimations ba = []
  ∧ loadedChunks ab = loadedChunks ba.
Proof.
  intros Hnil Ha Hb ab ba.
  destruct (revealAndRun_spec g xa ya ra sa ea Hnil Ha)
    as (Hc1 & Hs1 & Hf1 & Hn1).
  destruct (revealAndRun_spec _ xb yb rb sb eb Hn1 Hb)
    as (Hc2 & Hs2 & Hf2 & Hn2).
  destruct (revealAndRun_spec g xb yb rb sb' eb Hnil Hb)
    as (Hc3 & Hs3 & Hf3 & Hn3).
  destruct (revealAndRun_spec _ xa ya ra sa' ea Hn3 Ha)
    as (Hc4 & Hs4 & Hf4 & Hn4).
  rewrite (revealFactor_ext g) in Hf2
    by (try done; intros key; by eapply fogScaled_keys).
  rewrite (revealFactor_ext g) in Hf4
    by (try done; intros key; by eapply fogScaled_keys).
  pose proof (fogScaled_trans _ _ _ _ _ Hf1 Hf2) as Hab.
  pose proof (fogScaled_trans _ _ _ _ _ Hf3 Hf4) as Hba.
  split_and!; [| done | done | unfold ab, ba; congruence].
  eapply fogScaled_equiv; [|exact Hab | exact Hba].
  intros k px py. cbn beta. ring.
Qed.

Lemma reveals_commute_witness :
  fogEquiv
    (fogOfWar (revealAndRun (revealAndRun neighbourGame (513 # 2) (513 # 2)
                               100 0 [400; 800])
                 600 200 150 1000 [300; 600; 900]))
    (fogOfWar (revealAndRun (revealAndRun neighbourGame 600 200 150 0
                               [300; 600; 900])
                 (513 # 2) (513 # 2) 100 1000 [400; 800])).
Proof.
  apply (reveals_commute neighbourGame (513 # 2) (513 # 2) 100 600 200 150
           0 1000 1000 0 [400; 800] [300; 600; 900]).
  - reflexivity.
  - unfold completes. apply Exists_cons_tl, Exists_cons_hd. lia.
  - unfold completes. apply Exists_cons_tl, Exists_cons_tl, Exists_cons_hd.
    lia.
Defined.

(** C9. A reveal whose chunk has no mask returns the state as it was: no
    animation is registered, no mask is created and no mask changes, so
    the ticks that follow do what they would have done without the call. *)
Theorem revealArea_without_mask (g : Game) (x y radius : Q) (now : Z) :
  fogOfWar g !! getChunkKey (getChunkCoords g x y).1 (getChunkCoords g x y).2
    = None →
  revealArea g x y radius now = g
  ∧ newAnims g x y radius now = []
  ∧ ∀ times, runTicks (revealArea g x y radius now) times = runTicks g times.
Proof.
  intros Hnone. assert (H : revealArea g x y radius now = g).
  { unfold revealArea. cbn zeta. by rewrite Hnone. }
  split_and!; [done | | by rewrite H].
  unfold newAnims. cbn zeta. by rewrite Hnone.
Qed.

Lemma revealArea_without_mask_witness :
  fogOfWar foggedGame !! "2,-1" = None
  ∧ getChunkCoords foggedGame 1100 (-30) = (2, -1)
  ∧ revealArea foggedGame 1100 (-30) 200 0 = foggedGame.
Proof.
  split; [reflexivity|]. split; [reflexivity|].
  apply (revealArea_without_mask foggedGame 1100 (-30) 200 0). reflexivity.
Defined.

Lemma revealArea_runTicks_other (g : Game) (x y radius : Q) (start : Z)
    (times : list Z) (key : string) :
  Forall (fun a => animKey a ≠ key) (revealAnimations g) →
  key ≠ getChunkKey (getChunkCoords g x y).1 (getChunkCoords g x y).2 →
  fogOfWar (runTicks (revealArea g x y radius start) times) !! key
  = fogOfWar g !! key.
Proof.
  intros Hothers Hkey.
  destruct (revealArea_spec g x y radius start) as (Hf & _ & _ & Ha).
  rewrite runTicks_other; [by rewrite Hf|].
  rewrite Ha. apply Forall_app. split; [done|].
  eapply Forall_impl; [apply newAnims_shape|].
  intros a (_ & _ & Hk). by rewrite Hk.
Qed.

(** C10. A reveal and the ticks that run it write to the mask of the chunk
    that contains the reveal's origin and to no other: registering the
    reveal changes no mask, and under the key of any other chunk (one that
    no animation already in flight targets) the mask stays the very same
    through the ticks, however large the radius. *)
Theorem reveal_writes_own_mask_only (g : Game) (x y radius : Q) (start : Z)
    (times : list Z) :
  fogOfWar (revealArea g x y radius start) = fogOfWar g
  ∧ (∀ key,
       Forall (fun a => animKey a ≠ key) (revealAnimations g) →
       key ≠ getChunkKey (getChunkCoords g x y).1 (getChunkCoords g x y).2 →
       fogOfWar (runTicks (revealArea g x y radius start) times) !! key
       = fogOfWar g !! key)
  ∧ (∀ cx cy,
       Forall (fun a => (anim_chunkX a, anim_chunkY a) ≠ (cx, cy))
              (revealAnimations g) →
       (cx, cy) ≠ getChunkCoords g x y →
       fogOfWar (runTicks (revealArea g x y radius start) times)
         !! getChunkKey cx cy
       = fogOfWar g !! getChunkKey cx cy).
Proof.
  split_and!.
  - apply revealArea_spec.
  - intros key. apply revealArea_runTicks_other.
  - intros cx cy Hothers Hne. apply revealArea_runTicks_other.
    + eapply Forall_impl; [exact Hothers|]. intros a Ha Hk.
      apply getChunkKey_inj in Hk as [? ?]. apply Ha. congruence.
    + intros Hk. apply getChunkKey_inj in Hk as [? ?]. apply Hne.
      destruct (getChunkCoords g x y). cbn in *. congruence.
Qed.

Lemma reveal_writes_own_mask_only_witness :
  getChunkCoords neighbourGame 500 256 = (0, 0)
  ∧ fogOfWar (runTicks (revealArea neighbourGame 500 256 100 0) [400; 800])
      !! getChunkKey 1 0
    = fogOfWar neighbourGame !! getChunkKey 1 0
  ∧ opacityAt (runTicks (revealArea neighbourGame 500 256 100 0) [400; 800])
      "1,0" 10 256 = Some (9 # 10)%Q.
Proof.
  assert (H : fogOfWar (runTicks (revealArea neighbourGame 500 256 100 0)
                          [400; 800]) !! getChunkKey 1 0
              = fogOfWar neighbourGame !! getChunkKey 1 0).
  { apply (reveal_writes_own_mask_only neighbourGame 500 256 100 0
             [400; 800]); [constructor | discriminate]. }
  split; [reflexivity|]. split; [exact H|].
  unfold opacityAt. change "1,0" with (getChunkKey 1 0).
  rewrite H. reflexivity.
Defined.

(** * Further properties *)

(** ** Keys and coordinates *)

(** X1. The chunk key is collision-free: two coordinate pairs have the same
    key exactly when they are the same pair, so two world points get the
    same key exactly when [getChunkCoords] puts them in the same chunk. *)
Theorem chunk_key_identifies_chunk (g : Game) (x y x' y' : Q) :
  (∀ cx cy cx' cy' : Z,
      getChunkKey cx cy = getChunkKey cx' cy' ↔ (cx, cy) = (cx', cy'))
  ∧ (getChunkKey (getChunkCoords g x y).1 (getChunkCoords g x y).2
     = getChunkKey (getChunkCoords g x' y').1 (getChunkCoords g x' y').2
     ↔ getChunkCoords g x y = getChunkCoords g x' y').
Proof.
  assert (H : ∀ cx cy cx' cy' : Z,
             getChunkKey cx cy = getChunkKey cx' cy' ↔ (cx, cy) = (cx', cy')).
  { intros cx cy cx' cy'. split.
    - intros [-> ->]%getChunkKey_inj. reflexivity.
    - by intros [= -> ->]. }
  split; [exact H|]. rewrite H.
  destruct (getChunkCoords g x y), (getChunkCoords g x' y'). reflexivity.
Qed.

(** X2. [screenToWorld] and [worldToScreen] are inverse to each other
    whenever the camera's scale is not zero (coordinates being exact
    rationals here, the rounding of the arithmetic is left out). *)
Theorem screen_world_round_trip (g : Game) (a b : Q) :
  ¬ (cam_scale (camera g) == 0)%Q →
  ((worldToScreen g (screenToWorld g a b).1 (screenToWorld g a b).2).1 == a
   ∧ (worldToScreen g (screenToWorld g a b).1 (screenToWorld g a b).2).2 == b
   ∧ (screenToWorld g (worldToScreen g a b).1 (worldToScreen g a b).2).1 == a
   ∧ (screenToWorld g (worldToScreen g a b).1 (worldToScreen g a b).2).2
     == b)%Q.
Proof.
  intros Hs. unfold worldToScreen, screenToWorld. cbn [fst snd].
  split_and!; field; exact Hs.
Qed.

Lemma screen_world_round_trip_witness :
  ((worldToScreen (onlineGame "me" 800 600)
      (screenToWorld (onlineGame "me" 800 600) 120 (-45)).1
      (screenToWorld (onlineGame "me" 800 600) 120 (-45)).2).1 == 120)%Q.
Proof.
  apply (screen_world_round_trip (onlineGame "me" 800 600) 120 (-45)).
  discriminate.
Defined.

(** ** Camera and input *)

(** X3. Whatever the scale was and whatever the wheel delta, [handleWheel]
    leaves a scale between 0.3 and 2 and changes nothing but the scale; from
    a scale in that range, a positive delta never zooms in and any other
    delta never zooms out. *)
Theorem handleWheel_clamps (g : Game) (deltaY : Q) :
  let g' := handleWheel g deltaY in
  (3 # 10 <= cam_scale (camera g') <= 2)%Q
  ∧ cam_x (camera g') = cam_x (camera g)
  ∧ cam_y (camera g') = cam_y (camera g)
  ∧ set_camera (camera g) g' = g
  ∧ ((3 # 10 <= cam_scale (camera g) <= 2)%Q →
     if Qltb 0 deltaY
     then (cam_scale (camera g') <= cam_scale (camera g))%Q
     else (cam_scale (camera g) <= cam_scale (camera g'))%Q).
Proof.
  intros g'. unfold g', handleWheel. cbn [camera set_camera cam_scale cam_x
                                            cam_y].
  set (s := cam_scale (camera g)).
  set (f := if Qltb 0 deltaY then (9 # 10)%Q else (11 # 10)%Q).
  assert (Hmin : (Qmin 2 (s * f) <= 2)%Q) by apply Q.le_min_l.
  split.
  { split; [apply Q.le_max_l|]. apply Q.max_lub; [done | exact Hmin]. }
  split; [reflexivity|]. split; [reflexivity|].
  split; [by destruct g as [? ? ? ? [? ? ?]]|].
  intros [Hlo Hhi]. unfold f. destruct (Qltb 0 deltaY).
  - apply Q.max_lub; [exact Hlo|].
    eapply Qle_trans; [apply Q.le_min_r|]. lra.
  - eapply Qle_trans; [|apply Q.le_max_r]. apply Q.min_glb; lra.
Qed.

Lemma handleWheel_clamps_witness :
  (3 # 10 <= cam_scale (camera (onlineGame "me" 800 600)) <= 2)%Q
  ∧ (cam_scale (camera (handleWheel (onlineGame "me" 800 600) 120))
     <= cam_scale (camera (onlineGame "me" 800 600)))%Q.
Proof.
  assert (H : (3 # 10 <= cam_scale (camera (onlineGame "me" 800 600))
               <= 2)%Q) by (split; discriminate).
  split; [exact H|].
  apply (handleWheel_clamps (onlineGame "me" 800 600) 120). exact H.
Defined.

(** ** What the terrain functions leave alone *)

Lemma terrainOnly_refl (g : Game) : terrainOnly g g.
Proof. by destruct g. Qed.

Lemma terrainOnly_trans (g1 g2 g3 : Game) :
  terrainOnly g1 g2 → terrainOnly g2 g3 → terrainOnly g1 g3.
Proof.
  unfold terrainOnly. intros H12 H23. rewrite H23 at 1. rewrite H12 at 1.
  by destruct g1.
Qed.

Lemma terrainOnly_foldl {A} (f : Game → A → Game) (l : list A) (g : Game) :
  (∀ g a, terrainOnly g (f g a)) → terrainOnly g (foldl f g l).
Proof.
  intros Hf. revert g. induction l as [|a l IH]; intros g.
  - apply terrainOnly_refl.
  - cbn. eapply terrainOnly_trans; [apply Hf | apply IH].
Qed.

Lemma terrainOnly_unloadDistantChunks (g : Game) (cx cy : Z) :
  terrainOnly g (unloadDistantChunks g cx cy).
Proof.
  unfold unloadDistantChunks.
  generalize (chunksToUnload g cx cy). intros ks.
  apply terrainOnly_foldl. intros g0 k. by destruct g0.
Qed.

Lemma terrainOnly_tickAnim (now : Z) (g : Game) (a : Anim) :
  terrainOnly g (tickAnim now g a).1.1.
Proof.
  unfold tickAnim. cbn [fst]. repeat case_match; by destruct g.
Qed.

Lemma terrainOnly_tickLoop (now : Z) (l : list Anim) (g : Game)
    (kept : list Anim) :
  terrainOnly g (foldl (tickStep now) (g, kept) l).1.
Proof.
  revert g kept. induction l as [|a l IH]; intros g kept.
  - apply terrainOnly_refl.
  - cbn [foldl]. eapply terrainOnly_trans; [|apply IH].
    apply terrainOnly_tickAnim.
Qed.

Lemma terrainOnly_updateRevealAnimations (g : Game) (now : Z) :
  terrainOnly g (updateRevealAnimations g now).
Proof.
  unfold updateRevealAnimations. cbn zeta.
  pose proof (terrainOnly_tickLoop now (revealAnimations g) g []) as H.
  destruct (foldl (tickStep now) (g, []) (revealAnimations g)) as [g' kept].
  cbn [fst snd] in *. unfold terrainOnly in *. rewrite H at 1.
  by destruct g.
Qed.

Lemma terrainOnly_revealArea (g : Game) (x y radius : Q) (now : Z) :
  terrainOnly g (revealArea g x y radius now).
Proof. unfold revealArea. cbn zeta. case_match; by destruct g. Qed.

Lemma terrainOnly_storeChunk (g : Game) (entry : string * Chunk) :
  terrainOnly g (storeChunk g entry).
Proof. unfold storeChunk. cbn zeta. case_match; by destruct g. Qed.

Lemma terrainOnly_handleChunksData (g : Game) chunks :
  terrainOnly g (handleChunksData g chunks).
Proof. apply terrainOnly_foldl, terrainOnly_storeChunk. Qed.

Lemma terrainOnly_restoreFogEntry (g : Game) (e : SavedFog) :
  terrainOnly g (restoreFogEntry g e).
Proof.
  unfold restoreFogEntry, initializeChunkFogOfWar. cbn zeta.
  repeat case_match; by destruct g.
Qed.

Lemma terrainOnly_loadNearbyChunks (g : Game) :
  terrainOnly g (loadNearbyChunks g).1.
Proof. apply terrainOnly_unloadDistantChunks. Qed.

Lemma terrainOnly_update (g : Game) (now : Z) (random : Q) :
  terrainOnly g (update g now random).1.
Proof.
  unfold update. cbn [fst].
  eapply terrainOnly_trans;
    [apply terrainOnly_loadNearbyChunks
    | apply terrainOnly_updateRevealAnimations].
Qed.

(** What [terrainOnly] keeps. *)
Lemma terrainOnly_fields (g g' : Game) :
  terrainOnly g g' →
  socket g' = socket g ∧ isConnected g' = isConnected g
  ∧ reconnectAttempts g' = reconnectAttempts g
  ∧ maxReconnectAttempts g' = maxReconnectAttempts g
  ∧ camera g' = camera g ∧ selectedBuilding g' = selectedBuilding g
  ∧ chunkSize g' = chunkSize g ∧ chunkLoadRadius g' = chunkLoadRadius g
  ∧ inThrottle g' = inThrottle g ∧ connected g' = connected g.
Proof. unfold terrainOnly. intros ->. by destruct g. Qed.

(** ** Events, one at a time *)

Lemma throttledCameraUpdate_terrainOnly_but_throttle (g : Game) :
  set_inThrottle (inThrottle g) (throttledCameraUpdate g).1 = g.
Proof.
  unfold throttledCameraUpdate, throttle, cameraUpdate.
  destruct (inThrottle g) eqn:Ht; cbn; destruct (connected g), g; cbn in *;
    by subst.
Qed.

Lemma throttledCameraUpdate_camera (g : Game) :
  camera (throttledCameraUpdate g).1 = camera g.
Proof.
  rewrite <- (throttledCameraUpdate_terrainOnly_but_throttle g) at 2.
  by destruct (throttledCameraUpdate g).1.
Qed.

Lemma dispatch_frame (c : Client) (e : Event) :
  let c' := after (dispatch c e) in
  socket (game c') = socket (game c)
  ∧ maxReconnectAttempts (game c') = maxReconnectAttempts (game c)
  ∧ chunkSize (game c') = chunkSize (game c)
  ∧ chunkLoadRadius (game c') = chunkLoadRadius (game c)
  ∧ placementMode c' = placementMode c || isSelect e
  ∧ (isSelect e = false →
     selectedBuilding (game c') = selectedBuilding (game c))
  ∧ (e ≠ Connect → isConnected (game c') = true →
     isConnected (game c) = true)
  ∧ (e ≠ Connect → e ≠ Disconnect →
     reconnectAttempts (game c') = reconnectAttempts (game c)
     ∧ isConnected (game c') = isConnected (game c)).
Proof.
  destruct e; cbn [dispatch after onGame isSelect].
  all: try (rewrite orb_false_r).
  all: try (rewrite orb_true_r).
  - (* Connect *) cbn. by split_and!.
  - (* Disconnect *)
    unfold onDisconnect, attemptReconnect. cbn.
    case_match; cbn; by split_and!.
  - (* world_joined *)
    unfold handleWorldJoined. cbn [fst snd game placementMode].
    match goal with
    | |- context [loadNearbyChunks ?g1] =>
        destruct (terrainOnly_fields _ _ (terrainOnly_loadNearbyChunks g1))
          as (-> & -> & -> & -> & _ & -> & -> & -> & _ & _)
    end.
    cbn. by split_and!.
  - cbn. by split_and!.
  - unfold handlePlayerLeft. case_match; cbn; by split_and!.
  - unfold handleBuildingPlaced. repeat case_match; cbn; by split_and!.
  - cbn. by split_and!.
  - unfold handleScoutSent. repeat case_match; cbn; by split_and!.
  - cbn. by split_and!.
  - unfold handlePlayerUpdated.
    destruct data as [pid [r|] [p|] [s|]]; cbn;
      repeat case_match; simplify_eq; cbn; by split_and!.
  - unfold handlePlayerCameraUpdated. case_match; cbn; by split_and!.
  - cbn [game set_game placementMode].
    destruct (terrainOnly_fields _ _
                (terrainOnly_handleChunksData (game c) chunks))
      as (-> & -> & -> & -> & _ & -> & -> & -> & _ & _).
    by split_and!.
  - unfold handleAreaExplored. cbn [fst snd game set_game placementMode].
    destruct (terrainOnly_fields _ _
                (terrainOnly_revealArea (game c) x y range now))
      as (-> & -> & -> & -> & _ & -> & -> & -> & _ & _).
    by split_and!.
  - cbn. by split_and!.
  - cbn [game set_game placementMode].
    destruct (terrainOnly_fields _ _
                (terrainOnly_restoreFogEntry (game c) saved))
      as (-> & -> & -> & -> & _ & -> & -> & -> & _ & _).
    by split_and!.
  - unfold handleMouseDown, tryPlaceBuilding, sendScoutToExplore.
    repeat case_match; cbn; by split_and!.
  - unfold handleMouseMove. case_match; [cbn; by split_and!|].
    cbn [fst snd game set_game placementMode].
    match goal with
    | |- context [throttledCameraUpdate ?g1] =>
        pose proof (throttledCameraUpdate_terrainOnly_but_throttle g1)
          as Hthr;
        destruct (throttledCameraUpdate g1).1; cbn in Hthr;
        injection Hthr as -> -> -> -> -> -> -> -> -> -> -> -> -> -> -> -> ->
    end.
    by split_and!.
  - cbn. by split_and!.
  - cbn. by split_and!.
  - unfold handleKeyDown. repeat case_match; cbn; by split_and!.
  - unfold selectBuilding. case_match; cbn; by split_and!.
  - cbn. by split_and!.
  - cbn [game set_game placementMode fst].
    destruct (terrainOnly_fields _ _
                (terrainOnly_update (game c) now random))
      as (-> & -> & -> & -> & _ & -> & -> & -> & _ & _).
    by split_and!.
  - cbn. by split_and!.
Qed.

Lemma runEvents_app (c : Client) (l1 l2 : list Event) :
  runEvents c (l1 ++ l2) = runEvents (runEvents c l1) l2.
Proof. apply foldl_app. Qed.

Lemma effectsOf_app (c : Client) (l1 l2 : list Event) :
  effectsOf c (l1 ++ l2) = effectsOf c l1 ++ effectsOf (runEvents c l1) l2.
Proof.
  revert c. induction l1 as [|e l1 IH]; intros c; [done|].
  cbn. by rewrite IH, app_assoc.
Qed.

Lemma handleKeyDown_moves (c : Client) :
  handleKeyDown c "w" = (set_game (moveCamera 0 (- 50) (game c)) c, Returns)
  ∧ handleKeyDown c "s" = (set_game (moveCamera 0 50 (game c)) c, Returns)
  ∧ handleKeyDown c "a" = (set_game (moveCamera (- 50) 0 (game c)) c, Returns)
  ∧ handleKeyDown c "d" = (set_game (moveCamera 50 0 (game c)) c, Returns)
  ∧ handleKeyDown c "escape" = (c, Throws).
Proof.
  unfold handleKeyDown. split_and!;
    repeat (first [rewrite bool_decide_eq_true_2 by done
                  | rewrite bool_decide_eq_false_2 by done]);
    reflexivity.
Qed.

(** X4. The four movement keys shift the camera by 50 along one axis, and
    opposite keys cancel: after W then S, S then W, A then D or D then A the
    camera is where it was and nothing else has changed.  Any key other
    than these and Escape changes nothing; Escape ends in the call of the
    undefined [cancelPlacement].  Coordinates are exact rationals here:
    the rounding of the two additions is left out. *)
Theorem keyboard_moves_cancel (c : Client) (key : string) :
  let press := fun (c0 : Client) (k : string) => (handleKeyDown c0 k).1 in
  let back := fun (c' : Client) =>
    (cam_x (camera (game c')) == cam_x (camera (game c)))%Q
    ∧ (cam_y (camera (game c')) == cam_y (camera (game c)))%Q
    ∧ cam_scale (camera (game c')) = cam_scale (camera (game c))
    ∧ set_game (set_camera (camera (game c)) (game c')) c' = c in
  back (press (press c "w") "s") ∧ back (press (press c "s") "w")
  ∧ back (press (press c "a") "d") ∧ back (press (press c "d") "a")
  ∧ (cam_y (camera (game (press c "w")))
     == cam_y (camera (game c)) - 50)%Q
  ∧ (cam_x (camera (game (press c "d")))
     == cam_x (camera (game c)) + 50)%Q
  ∧ handleKeyDown c "escape" = (c, Throws)
  ∧ (key ∉ ["w"; "s"; "a"; "d"; "escape"] →
     handleKeyDown c key = (c, Returns)).
Proof.
  intros press back. unfold back, press.
  assert (Hany := handleKeyDown_moves).
  rewrite !(proj1 (Hany _)), !(proj1 (proj2 (Hany _))),
    !(proj1 (proj2 (proj2 (Hany _)))),
    !(proj1 (proj2 (proj2 (proj2 (Hany _))))),
    !(proj2 (proj2 (proj2 (proj2 (Hany _))))).
  clear Hany.
  destruct c as [[? ? ? ? [cx cy sc] ? ? ? ? ? ? ? ? ? ? ? ? ?]
                   ? ? ? ? ? ? ?].
  cbn. split_and!; try reflexivity; try ring.
  intros Hkey. unfold handleKeyDown.
  rewrite !not_elem_of_cons in Hkey.
  destruct Hkey as (? & ? & ? & ? & ? & _).
  by rewrite !bool_decide_eq_false_2.
Qed.

Lemma keyboard_moves_cancel_witness :
  handleKeyDown exampleClient "q" = (exampleClient, Returns).
Proof.
  apply (keyboard_moves_cancel exampleClient "q").
  rewrite !not_elem_of_cons. split_and!; try discriminate.
  apply not_elem_of_nil.
Defined.

Lemma handleMouseMove_dragging (c : Client) (x y : Q) :
  isDragging c = true →
  let c' := (handleMouseMove c x y).1 in
  camera (game c')
  = mkCamera ((cameraStart c).1 - (x - (dragStart c).1))%Q
             ((cameraStart c).2 - (y - (dragStart c).2))%Q
             (cam_scale (camera (game c)))
  ∧ isDragging c' = true ∧ dragStart c' = dragStart c
  ∧ cameraStart c' = cameraStart c ∧ placementMode c' = placementMode c
  ∧ connected (game c') = connected (game c).
Proof.
  intros Hd. unfold handleMouseMove. rewrite Hd. cbn [negb fst game set_game].
  rewrite throttledCameraUpdate_camera. split_and!; try done.
  match goal with
  | |- context [throttledCameraUpdate ?g1] =>
      pose proof (throttledCameraUpdate_terrainOnly_but_throttle g1) as Hthr;
      destruct (throttledCameraUpdate g1).1; cbn in Hthr;
      injection Hthr as -> -> -> -> -> -> -> -> -> -> -> -> -> -> -> -> ->
  end.
  reflexivity.
Qed.

Lemma runEvents_cons (c : Client) (e : Event) (l : list Event) :
  runEvents c (e :: l) = runEvents (after (dispatch c e)) l.
Proof. reflexivity. Qed.

Lemma dispatch_MouseMove (c : Client) (x y : Q) :
  after (dispatch c (MouseMove x y)) = (handleMouseMove c x y).1
  ∧ effects (dispatch c (MouseMove x y)) = (handleMouseMove c x y).2.
Proof. done. Qed.

(** X5. A drag follows the pointer and nothing else: once a press has
    started a drag at [(x0, y0)], after any moves the camera is the camera
    of the press shifted by the offset from [(x0, y0)] to the last position,
    whatever the path, so coming back to [(x0, y0)] puts the camera back;
    the scale is untouched.  Without a drag a move does nothing. *)
Theorem drag_follows_pointer (c : Client) (x0 y0 : Q) (button : option Z)
    (path : list (Q * Q)) (x y : Q) :
  placementMode c && truthyString (selectedBuilding (game c)) = false →
  button ≠ Some 2 →
  let pressed := (handleMouseDown c x0 y0 button).1 in
  let moved :=
    runEvents pressed
      ((fun p : Q * Q => MouseMove p.1 p.2) <$> (path ++ [(x, y)])) in
  camera (game moved)
  = mkCamera (cam_x (camera (game c)) - (x - x0))%Q
             (cam_y (camera (game c)) - (y - y0))%Q
             (cam_scale (camera (game c)))
  ∧ ((x == x0)%Q → (y == y0)%Q →
     (cam_x (camera (game moved)) == cam_x (camera (game c)))%Q
     ∧ (cam_y (camera (game moved)) == cam_y (camera (game c)))%Q)
  ∧ (isDragging c = false → handleMouseMove c x y = (c, [])).
Proof.
  intros Hplace Hbutton pressed moved.
  assert (Hpressed : isDragging pressed = true
                     ∧ dragStart pressed = (x0, y0)
                     ∧ cameraStart pressed
                       = (cam_x (camera (game c)), cam_y (camera (game c)))
                     ∧ cam_scale (camera (game pressed))
                       = cam_scale (camera (game c))).
  { unfold pressed, handleMouseDown. rewrite Hplace.
    rewrite bool_decide_eq_false_2 by done. by cbn. }
  assert (Hpath : ∀ l c0,
             isDragging c0 = true →
             let c1 := runEvents c0
                         ((fun p : Q * Q => MouseMove p.1 p.2) <$> l) in
             isDragging c1 = true ∧ dragStart c1 = dragStart c0
             ∧ cameraStart c1 = cameraStart c0
             ∧ cam_scale (camera (game c1)) = cam_scale (camera (game c0))).
  { induction l as [|p l IH]; intros c0 Hd; [done|].
    rewrite fmap_cons. cbn zeta. rewrite runEvents_cons.
    rewrite (proj1 (dispatch_MouseMove _ _ _)).
    destruct (handleMouseMove_dragging c0 p.1 p.2 Hd)
      as (Hcam & Hd' & Hs & Hcs & _).
    destruct (IH _ Hd') as (? & ? & ? & Hsc). cbn zeta in *.
    split_and!; try congruence.
    rewrite Hsc, Hcam. reflexivity. }
  destruct Hpressed as (Hd & Hds & Hcs & Hsc).
  destruct (Hpath path pressed Hd) as (Hd1 & Hds1 & Hcs1 & Hsc1).
  assert (Hcam : camera (game moved)
                 = mkCamera (cam_x (camera (game c)) - (x - x0))%Q
                            (cam_y (camera (game c)) - (y - y0))%Q
                            (cam_scale (camera (game c)))).
  { unfold moved. rewrite fmap_app, runEvents_app.
    rewrite fmap_cons, runEvents_cons.
    rewrite (proj1 (dispatch_MouseMove _ _ _)).
    destruct (handleMouseMove_dragging _ x y Hd1) as (Hlast & _).
    cbn zeta in Hlast. etrans; [exact Hlast|].
    cbn zeta in *.
    rewrite Hds1, Hcs1, Hsc1, Hds, Hcs, Hsc. reflexivity. }
  split_and!.
  - exact Hcam.
  - intros Hx Hy. rewrite Hcam. cbn. rewrite Hx, Hy. split; ring.
  - intros Hnot. unfold handleMouseMove. by rewrite Hnot.
Qed.

Lemma drag_follows_pointer_witness :
  camera (game (runEvents (handleMouseDown exampleClient 100 100 (Some 0)).1
                  [MouseMove 130 90; MouseMove 60 140]))
  = mkCamera (0 - (60 - 100)) (0 - (140 - 100)) 1.
Proof.
  apply (drag_follows_pointer exampleClient 100 100 (Some 0)
           [(130, 90)%Q] 60 140); [reflexivity | discriminate].
Defined.

(** X6. The camera update is throttled on its leading edge: while the
    client is connected and dragging, a burst of moves with no timer in
    between sends exactly one [update_camera], the camera of the first move,
    and none of the later positions; once the throttle's timer has fired,
    the next move sends again. *)
Theorem camera_updates_throttled (c : Client) (p : Q * Q)
    (burst : list (Q * Q)) (q : Q * Q) :
  connected (game c) = true → inThrottle (game c) = false →
  isDragging c = true →
  let moves :=
    (fun p : Q * Q => MouseMove p.1 p.2) <$> (p :: burst) in
  cameraUpdates (effectsOf c moves)
  = [mkCamera ((cameraStart c).1 - (p.1 - (dragStart c).1))%Q
              ((cameraStart c).2 - (p.2 - (dragStart c).2))%Q
              (cam_scale (camera (game c)))]
  ∧ inThrottle (game (runEvents c moves)) = true
  ∧ length (cameraUpdates
              (effectsOf c (moves ++ [ThrottleTimer; MouseMove q.1 q.2])))
    = 2%nat.
Proof.
  intros Hconn Hthr Hdrag moves.
  assert (Hquiet : ∀ l c0,
             isDragging c0 = true → inThrottle (game c0) = true →
             let evs := (fun p : Q * Q => MouseMove p.1 p.2) <$> l in
             effectsOf c0 evs = []
             ∧ isDragging (runEvents c0 evs) = true
             ∧ inThrottle (game (runEvents c0 evs)) = true
             ∧ connected (game (runEvents c0 evs)) = connected (game c0)).
  { induction l as [|p0 l IH]; intros c0 Hd Ht; [done|].
    rewrite fmap_cons. cbn zeta. rewrite runEvents_cons.
    cbn [effectsOf].
    rewrite (proj1 (dispatch_MouseMove _ _ _)),
      (proj2 (dispatch_MouseMove _ _ _)).
    destruct (handleMouseMove_dragging c0 p0.1 p0.2 Hd)
      as (_ & Hd' & _ & _ & _ & Hc').
    assert (Hstep : (handleMouseMove c0 p0.1 p0.2).2 = []
                    ∧ inThrottle (game (handleMouseMove c0 p0.1 p0.2).1)
                      = true).
    { unfold handleMouseMove, throttledCameraUpdate, throttle.
      rewrite Hd. cbn [negb fst snd game set_game inThrottle set_camera].
      by rewrite Ht. }
    destruct Hstep as [He Ht'].
    destruct (IH _ Hd' Ht') as (IHe & IHd & IHt & IHc). cbn zeta in *.
    rewrite He, IHe. split_and!; [done | done | done | congruence]. }
  assert (Hfirst : ∀ c0 p0,
             connected (game c0) = true → inThrottle (game c0) = false →
             isDragging c0 = true →
             cameraUpdates (handleMouseMove c0 p0.1 p0.2).2
             = [mkCamera ((cameraStart c0).1 - (p0.1 - (dragStart c0).1))%Q
                         ((cameraStart c0).2 - (p0.2 - (dragStart c0).2))%Q
                         (cam_scale (camera (game c0)))]
             ∧ inThrottle (game (handleMouseMove c0 p0.1 p0.2).1) = true).
  { intros c0 p0 Hc0 Ht0 Hd0.
    unfold handleMouseMove, throttledCameraUpdate, throttle, cameraUpdate.
    rewrite Hd0. cbn [negb fst snd game set_game inThrottle set_camera].
    rewrite Ht0. cbn [negb].
    replace (connected (set_camera _ (game c0))) with true
      by (rewrite <- Hc0; by destruct (game c0)).
    by cbn. }
  destruct (Hfirst c p Hconn Hthr Hdrag) as [He1 Ht1].
  destruct (handleMouseMove_dragging c p.1 p.2 Hdrag)
    as (_ & Hd1 & _ & _ & _ & Hc1).
  destruct (Hquiet burst _ Hd1 Ht1) as (He2 & Hd2 & Ht2 & Hc2).
  cbn zeta in *.
  assert (Hmoves : effectsOf c moves = (handleMouseMove c p.1 p.2).2).
  { unfold moves. rewrite fmap_cons. cbn [effectsOf].
    rewrite (proj1 (dispatch_MouseMove _ _ _)),
      (proj2 (dispatch_MouseMove _ _ _)).
    by rewrite He2, app_nil_r. }
  assert (Hrun : runEvents c moves
                 = runEvents (handleMouseMove c p.1 p.2).1
                     ((fun p : Q * Q => MouseMove p.1 p.2) <$> burst))
    by reflexivity.
  split_and!.
  - by rewrite Hmoves.
  - by rewrite Hrun.
  - rewrite effectsOf_app, Hmoves, Hrun.
    cbn [effectsOf dispatch after effects].
    set (c2 := runEvents (handleMouseMove c p.1 p.2).1 _) in *.
    destruct (Hfirst (set_game (releaseThrottle (game c2)) c2) q)
      as [He3 _].
    + cbn. rewrite <- Hconn, <- Hc1, <- Hc2. by destruct (game c2).
    + reflexivity.
    + exact Hd2.
    + unfold cameraUpdates in *. rewrite !omap_app, He1.
      cbn [app length]. rewrite app_nil_r, He3. reflexivity.
Qed.

Lemma camera_updates_throttled_witness :
  cameraUpdates
    (effectsOf (handleMouseDown exampleClient 100 100 None).1
       [MouseMove 101 100; MouseMove 105 102; MouseMove 110 104])
  = [mkCamera (0 - (101 - 100)) (0 - (100 - 100)) 1].
Proof.
  apply (camera_updates_throttled
           (handleMouseDown exampleClient 100 100 None).1 (101, 100)%Q
           [(105, 102)%Q; (110, 104)%Q] (0, 0)%Q); reflexivity.
Defined.

(** ** Placement mode *)

Lemma runEvents_placement (events : list Event) (c : Client) :
  placementMode c = true →
  Forall (fun e => isSelect e = false) events →
  placementMode (runEvents c events) = true
  ∧ selectedBuilding (game (runEvents c events))
    = selectedBuilding (game c).
Proof.
  intros Hp Hall. revert c Hp.
  induction Hall as [|e l He _ IH]; intros c Hp; [done|].
  rewrite runEvents_cons.
  destruct (dispatch_frame c e) as (_ & _ & _ & _ & Hpm & Hsb & _).
  cbn zeta in *. destruct (IH (after (dispatch c e))) as [-> ->].
  - rewrite Hpm, Hp. reflexivity.
  - split; [done | by apply Hsb].
Qed.

(** X7. Placement mode is entered by [selectBuilding] and never left: no
    handler clears it.  Once a building type is selected, whatever events
    follow (other than another selection), a press on the map never starts
    a drag and never sends a scout, not even with the right button: it is a
    placement of the selected type at the world position of the press, sent
    if the client is connected. *)
Theorem placement_mode_is_sticky (c : Client) (buildingType : string)
    (cardExists : bool) (events : list Event) (x y : Q)
    (button : option Z) :
  buildingType ≠ "" →
  Forall (fun e => isSelect e = false) events →
  let selected := (selectBuilding c buildingType cardExists).1.1 in
  let later := runEvents selected events in
  placementMode later = true
  ∧ selectedBuilding (game later) = Some buildingType
  ∧ handleMouseDown later x y button
    = (later,
       if connected (game later)
       then [Emit (place_building (Some buildingType)
                     (screenToWorld (game later) x y).1
                     (screenToWorld (game later) x y).2)]
       else [ShowNotification "Not connected to server!" "error"]).
Proof.
  intros Hne Hall selected later.
  assert (Hsel : placementMode selected = true
                 ∧ selectedBuilding (game selected) = Some buildingType).
  { unfold selected, selectBuilding. by destruct cardExists. }
  destruct Hsel as [Hp Hs].
  destruct (runEvents_placement events selected Hp Hall) as [Hp' Hs'].
  fold later in Hp', Hs'. rewrite Hs in Hs'.
  split_and!; [done | done |].
  unfold handleMouseDown. rewrite Hp', Hs'. cbn [truthyString andb].
  rewrite bool_decide_eq_false_2 by done. cbn [negb].
  unfold tryPlaceBuilding. rewrite Hs'.
  destruct (connected (game later)); cbn; by destruct later.
Qed.

Lemma placement_mode_is_sticky_witness :
  placementMode
    (runEvents (selectBuilding exampleClient "farm" true).1.1
       [KeyDown "escape"; BuildingRejected "no room"; Wheel 3; MouseUp])
  = true.
Proof.
  apply (placement_mode_is_sticky exampleClient "farm" true
           [KeyDown "escape"; BuildingRejected "no room"; Wheel 3; MouseUp]
           0 0 None).
  - discriminate.
  - repeat constructor.
Defined.

(** ** Connection *)

Lemma dispatch_quiet_offline (c : Client) (e : Event) :
  connected (game c) = false → e ≠ Connect →
  ¬ transmits (effects (dispatch c e))
  ∧ connected (game (after (dispatch c e))) = false.
Proof.
  intros Hoff Hne.
  assert (Hstay : connected (game (after (dispatch c e))) = false).
  { destruct (dispatch_frame c e) as (Hs & _ & _ & _ & _ & _ & Hic & _).
    cbn zeta in *. unfold connected in *. rewrite Hs.
    destruct (socket (game c)); [|done].
    destruct (isConnected (game (after (dispatch c e)))) eqn:E; [|done].
    rewrite <- Hoff. symmetry. by apply Hic. }
  split; [|exact Hstay]. clear Hstay. intros [o Hin].
  destruct e; cbn [dispatch effects onGame] in Hin; try done.
  - unfold onDisconnect, attemptReconnect in Hin.
    case_match; cbn in Hin; set_solver.
  - unfold handleWorldJoined, loadNearbyChunks in Hin. cbn [fst snd] in Hin.
    match type of Hin with
    | context [connected ?g1] =>
        replace (connected g1) with false in Hin
          by (rewrite <- Hoff; by destruct (game c))
    end.
    rewrite andb_false_r in Hin. set_solver.
  - cbn in Hin. set_solver.
  - unfold handlePlayerLeft in Hin. case_match; cbn in Hin; set_solver.
  - unfold handleBuildingPlaced in Hin.
    repeat case_match; cbn in Hin; set_solver.
  - cbn in Hin. set_solver.
  - unfold handleScoutSent in Hin. repeat case_match; cbn in Hin; set_solver.
  - cbn in Hin. set_solver.
  - case_match; cbn in Hin; set_solver.
  - set_solver.
  - set_solver.
  - unfold handleAreaExplored, saveFogOfWarToServer in Hin.
    cbn [fst snd] in Hin.
    rewrite (proj2 (proj2 (proj2 (proj2 (proj2 (proj2 (proj2 (proj2 (proj2
               (terrainOnly_fields _ _
                  (terrainOnly_revealArea (game c) x y range now)))))))))))
      in Hin.
    rewrite Hoff in Hin. set_solver.
  - set_solver.
  - set_solver.
  - unfold handleMouseDown, tryPlaceBuilding, sendScoutToExplore in Hin.
    rewrite Hoff in Hin. repeat case_match; cbn in Hin; set_solver.
  - unfold handleMouseMove, throttledCameraUpdate, throttle, cameraUpdate
      in Hin.
    replace (connected (set_camera _ (game c))) with false in Hin
      by (rewrite <- Hoff; by destruct (game c)).
    repeat case_match; cbn in Hin; set_solver.
  - set_solver.
  - set_solver.
  - unfold handleKeyDown in Hin. repeat case_match; cbn in Hin; set_solver.
  - unfold selectBuilding in Hin. case_match; cbn in Hin; set_solver.
  - set_solver.
  - unfold update, loadNearbyChunks, saveFogOfWarToServer in Hin.
    cbn [fst snd] in Hin. rewrite Hoff, andb_false_r in Hin.
    rewrite (proj2 (proj2 (proj2 (proj2 (proj2 (proj2 (proj2 (proj2 (proj2
               (terrainOnly_fields _ _
                  (terrainOnly_updateRevealAnimations _ now)))))))))))
      in Hin.
    rewrite (proj2 (proj2 (proj2 (proj2 (proj2 (proj2 (proj2 (proj2 (proj2
               (terrainOnly_fields _ _
                  (terrainOnly_unloadDistantChunks (game c) _ _)))))))))))
      in Hin.
    rewrite Hoff in Hin. case_match; set_solver.
  - set_solver.
Qed.

(** X8. A client that is not connected sends nothing: whatever events
    reach it, as long as none of them is the socket's [connect], no handler
    emits anything (no join, camera update, placement, scout, chunk request
    or fog save), and the client stays unconnected. *)
Theorem offline_client_sends_nothing (c : Client) (events : list Event) :
  connected (game c) = false → Connect ∉ events →
  ¬ transmits (effectsOf c events)
  ∧ connected (game (runEvents c events)) = false.
Proof.
  revert c. induction events as [|e l IH]; intros c Hoff Hno.
  - split; [|done]. intros [o Hin]. by apply not_elem_of_nil in Hin.
  - apply not_elem_of_cons in Hno as [Hne Hno].
    destruct (dispatch_quiet_offline c e Hoff) as [Hq Hoff']; [done|].
    destruct (IH _ Hoff' Hno) as [IHq IHoff].
    rewrite runEvents_cons. split; [|done].
    intros [o Hin]. cbn [effectsOf] in Hin.
    apply elem_of_app in Hin as [Hin | Hin].
    + apply Hq. by exists o.
    + apply IHq. by exists o.
Qed.

Lemma offline_client_sends_nothing_witness :
  ¬ transmits
      (effectsOf (set_game offlineGame exampleClient)
         [MouseDown 10 10 (Some 2); Frame 16 0; AreaExplored 5 5 40 16;
          MouseDown 10 10 None; MouseMove 20 20]).
Proof.
  apply (offline_client_sends_nothing (set_game offlineGame exampleClient)
           [MouseDown 10 10 (Some 2); Frame 16 0; AreaExplored 5 5 40 16;
            MouseDown 10 10 None; MouseMove 20 20]).
  - reflexivity.
  - rewrite !not_elem_of_cons. split_and!; try discriminate.
    apply not_elem_of_nil.
Defined.

(** X9. The retry counter never leaves the range from 0 to the maximum,
    whatever events arrive, and the maximum never changes. *)
Theorem reconnectAttempts_bounded (c : Client) (events : list Event) :
  0 ≤ reconnectAttempts (game c) ≤ maxReconnectAttempts (game c) →
  let c' := runEvents c events in
  0 ≤ reconnectAttempts (game c') ≤ maxReconnectAttempts (game c')
  ∧ maxReconnectAttempts (game c') = maxReconnectAttempts (game c).
Proof.
  revert c. induction events as [|e l IH]; intros c Hb; [done|].
  cbn zeta. rewrite runEvents_cons.
  assert (Hstep : 0 ≤ reconnectAttempts (game (after (dispatch c e)))
                  ≤ maxReconnectAttempts (game (after (dispatch c e)))).
  { destruct (dispatch_frame c e) as (_ & Hm & _ & _ & _ & _ & _ & Hra).
    cbn zeta in *. rewrite Hm.
    destruct e;
      try (destruct (Hra ltac:(discriminate) ltac:(discriminate))
             as [-> _]; exact Hb).
    - cbn. lia.
    - cbn. unfold attemptReconnect. cbn.
      destruct (Z.ltb_spec (reconnectAttempts (game c))
                  (maxReconnectAttempts (game c))); cbn; lia. }
  destruct (IH _ Hstep) as [IHb IHm]. cbn zeta in *.
  split; [done|]. rewrite IHm.
  by destruct (dispatch_frame c e) as (_ & -> & _).
Qed.

Lemma reconnectAttempts_bounded_witness :
  let c' :=
    runEvents exampleClient
      [Disconnect; Disconnect; Connect; Disconnect; Disconnect;
       Disconnect; Disconnect; Disconnect; Disconnect] in
  0 ≤ reconnectAttempts (game c') ≤ maxReconnectAttempts (game c')
  ∧ maxReconnectAttempts (game c') = maxReconnectAttempts (game exampleClient).
Proof.
  apply (reconnectAttempts_bounded exampleClient
           [Disconnect; Disconnect; Connect; Disconnect; Disconnect;
            Disconnect; Disconnect; Disconnect; Disconnect]).
  change (0 ≤ 0 ≤ 5). lia.
Defined.

(** X10. A successful [connect] restarts the backoff: it sets the counter to
    0 and marks the client connected, so the next loss of the connection
    schedules the first delay again ([min 2000 10000] ms) even when the
    retries had been used up; with a socket present it also sends the join
    request. *)
Theorem connect_restarts_backoff (g : Game) :
  0 < maxReconnectAttempts g →
  let up := (onConnect g).1 in
  reconnectAttempts up = 0 ∧ isConnected up = true
  ∧ reconnectDelays (onDisconnect up).2 = [2000]
  ∧ reconnectAttempts (onDisconnect up).1 = 1
  ∧ (is_Some (socket g) →
     (onConnect g).2
     = [ShowNotification "Connected to multiplayer server!" "success";
        Emit (join_world None)]).
Proof.
  intros Hmax. cbn zeta. unfold onDisconnect, attemptReconnect, onConnect.
  cbn [fst snd reconnectAttempts maxReconnectAttempts set_isConnected
         set_reconnectAttempts isConnected].
  rewrite (proj2 (Z.ltb_lt _ _) Hmax). cbn. split_and!; try done.
  intros [id Hid]. unfold joinWorld, connected. cbn. by rewrite Hid.
Qed.

Lemma connect_restarts_backoff_witness :
  reconnectDelays
    (onDisconnect
       (onConnect (consecutiveFailures 7 (onlineGame "me" 800 600)).1).1).2
  = [2000].
Proof.
  apply (connect_restarts_backoff
           (consecutiveFailures 7 (onlineGame "me" 800 600)).1).
  reflexivity.
Defined.

(** ** Roster *)

Lemma dispatch_roster (c : Client) (e : Event) (id : string) :
  changesRoster e = false →
  let c' := after (dispatch c e) in
  peer_name <$> otherPlayers c' !! id = peer_name <$> otherPlayers c !! id
  ∧ peer_socket_id <$> otherPlayers c' !! id
    = peer_socket_id <$> otherPlayers c !! id.
Proof.
  intros He. cbn zeta.
  destruct e; try discriminate He; cbn [dispatch after onGame];
    try reflexivity;
    try (unfold handleBuildingPlaced, handleMouseDown, handleMouseMove,
           handleKeyDown, selectBuilding;
         by repeat case_match).
  unfold handlePlayerCameraUpdated.
  destruct (otherPlayers c !! playerId) as [player|] eqn:E; [|done].
  cbn. destruct (decide (id = playerId)) as [-> | Hne].
  - by rewrite lookup_insert_eq, E.
  - by rewrite lookup_insert_ne.
Qed.

(** X11. The roster changes hands only through [world_joined],
    [player_joined] and [player_left]: whatever other events arrive, the
    same ids are on the roster under the same names.  In particular a
    camera update for an id that is not on the roster adds no entry. *)
Theorem roster_membership_stable (c : Client) (events : list Event)
    (id : string) :
  Forall (fun e => changesRoster e = false) events →
  let c' := runEvents c events in
  peer_name <$> otherPlayers c' !! id = peer_name <$> otherPlayers c !! id
  ∧ peer_socket_id <$> otherPlayers c' !! id
    = peer_socket_id <$> otherPlayers c !! id.
Proof.
  intros Hall. revert c. induction Hall as [|e l He _ IH]; intros c; [done|].
  cbn zeta. rewrite runEvents_cons.
  destruct (IH (after (dispatch c e))) as [-> ->].
  by apply dispatch_roster.
Qed.

Lemma roster_membership_stable_witness :
  peer_name
    <$> otherPlayers
          (runEvents exampleClient
             [PlayerCameraUpdated "stranger" None;
              PlayerCameraUpdated "peer" None; MouseUp]) !! "stranger"
  = peer_name <$> otherPlayers exampleClient !! "stranger".
Proof.
  apply (roster_membership_stable exampleClient
           [PlayerCameraUpdated "stranger" None;
            PlayerCameraUpdated "peer" None; MouseUp] "stranger").
  repeat constructor.
Defined.

(** X12. A [player_left] undoes a [player_joined] for the same id, whatever
    the roster held for that id before: the entry is gone, the notification
    names the player as it last joined, and a second [player_left] for the
    id changes nothing and shows nothing. *)
Theorem leave_after_join (c : Client) (id name : string)
    (cam : option Camera) :
  let joined := (handlePlayerJoined c id name cam).1 in
  let left := handlePlayerLeft joined id in
  otherPlayers left.1 = delete id (otherPlayers c)
  ∧ left.2 = [ShowNotification (name +:+ " left the world") "info"]
  ∧ handlePlayerLeft left.1 id = (left.1, [])
  ∧ game left.1 = game c.
Proof.
  cbn zeta.
  assert (E : handlePlayerLeft (handlePlayerJoined c id name cam).1 id
              = (set_otherPlayers (delete id (otherPlayers c)) c,
                 [ShowNotification (name +:+ " left the world") "info"])).
  { unfold handlePlayerLeft. cbn [handlePlayerJoined fst].
    cbn [otherPlayers set_otherPlayers]. rewrite lookup_insert_eq.
    cbn [peer_name]. by rewrite delete_insert_eq. }
  rewrite E. cbn [fst snd]. split_and!; try done.
  unfold handlePlayerLeft. cbn [otherPlayers set_otherPlayers].
  by rewrite lookup_delete_eq.
Qed.

Lemma rosterOf_lookup (players : list Peer) (m : gmap string Peer)
    (id : string) :
  foldl (fun m player => <[peer_socket_id player := player]> m) m players
    !! id
  = match last (filter (fun p => peer_socket_id p = id) players) with
    | Some p => Some p
    | None => m !! id
    end.
Proof.
  induction players as [|p l IH] using rev_ind; [done|].
  rewrite foldl_app, filter_app. cbn [foldl].
  rewrite filter_cons, filter_nil.
  destruct (decide (peer_socket_id p = id)) as [<- | Hne].
  - by rewrite lookup_insert_eq, last_snoc.
  - by rewrite lookup_insert_ne, app_nil_r.
Qed.

(** X13. [world_joined] replaces the roster wholesale: afterwards an id is
    on the roster exactly when the snapshot lists it, with the last of the
    snapshot's entries for that id, whatever the roster held before; so
    the roster is never larger than the snapshot's list. *)
Theorem world_joined_replaces_roster (c : Client) (data : WorldJoined)
    (id : string) :
  let c' := (handleWorldJoined c data).1.1 in
  otherPlayers c' !! id
  = last (filter (fun p => peer_socket_id p = id) (wj_otherPlayers data))
  ∧ (size (otherPlayers c') ≤ length (wj_otherPlayers data))%nat
  ∧ worldId c' = Some (wj_worldId data).
Proof.
  cbn zeta. cbn [handleWorldJoined fst otherPlayers worldId].
  split_and!; [| | done].
  - unfold rosterOf. rewrite rosterOf_lookup, lookup_empty.
    by case_match.
  - unfold rosterOf. generalize (wj_otherPlayers data). intros l.
    induction l as [|p l IH] using rev_ind; [done|].
    rewrite foldl_app, length_app. cbn [foldl length].
    rewrite map_size_insert. case_match; cbn; lia.
Qed.

(** ** Session *)

Lemma terrainOnly_session (g g' : Game) :
  terrainOnly g g' →
  resources g' = resources g ∧ population g' = population g
  ∧ buildings g' = buildings g ∧ scouts g' = scouts g
  ∧ canvasWidth g' = canvasWidth g ∧ canvasHeight g' = canvasHeight g.
Proof. unfold terrainOnly. intros ->. by destruct g. Qed.

Lemma terrainOnly_cameraChunk (g g' : Game) :
  terrainOnly g g' → cameraChunk g' = cameraChunk g.
Proof. unfold terrainOnly. intros ->. by destruct g. Qed.

Lemma dispatch_buildings (c : Client) (e : Event) (id : string) :
  socket (game c) = Some id → isWorldJoined e = false →
  buildings (game (after (dispatch c e)))
  = buildings (game c) ++ peerBuildings id [e].
Proof.
  intros Hid He.
  destruct e; try discriminate He;
    cbn [dispatch after onGame peerBuildings omap];
    rewrite ?app_nil_r.
  - done.
  - unfold onDisconnect, attemptReconnect. cbn. by case_match.
  - done.
  - unfold handlePlayerLeft. by case_match.
  - unfold handleBuildingPlaced. rewrite Hid.
    unfold peerBuildings. cbn.
    repeat match goal with
           | |- context [@bool_decide ?P ?d] =>
               destruct (@bool_decide P d) eqn:?
           end;
      repeat match goal with
             | H : bool_decide _ = true |- _ => apply bool_decide_eq_true in H
             | H : bool_decide _ = false |- _ =>
                 apply bool_decide_eq_false in H
             end;
      cbn; rewrite ?app_nil_r; congruence.
  - done.
  - unfold handleScoutSent. rewrite Hid. by case_match.
  - done.
  - unfold handlePlayerUpdated. rewrite Hid.
    destruct data as [pid [r|] [p|] [s|]]; cbn;
      repeat case_match; simplify_eq; by cbn.
  - unfold handlePlayerCameraUpdated. by case_match.
  - cbn [game set_game].
    by destruct (terrainOnly_session _ _
                   (terrainOnly_handleChunksData (game c) chunks))
      as (_ & _ & -> & _).
  - unfold handleAreaExplored. cbn [fst game set_game].
    by destruct (terrainOnly_session _ _
                   (terrainOnly_revealArea (game c) x y range now))
      as (_ & _ & -> & _).
  - done.
  - cbn [game set_game].
    by destruct (terrainOnly_session _ _
                   (terrainOnly_restoreFogEntry (game c) saved))
      as (_ & _ & -> & _).
  - unfold handleMouseDown, tryPlaceBuilding, sendScoutToExplore.
    by repeat case_match.
  - unfold handleMouseMove. case_match; [done|].
    cbn [fst game set_game].
    match goal with
    | |- context [throttledCameraUpdate ?g1] =>
        pose proof (throttledCameraUpdate_terrainOnly_but_throttle g1)
          as Hthr;
        destruct (throttledCameraUpdate g1).1; cbn in Hthr;
        injection Hthr as -> -> -> -> -> -> -> -> -> -> -> -> -> -> -> -> ->
    end.
    done.
  - done.
  - done.
  - unfold handleKeyDown. by repeat case_match.
  - unfold selectBuilding. by case_match.
  - done.
  - cbn [game set_game fst].
    by destruct (terrainOnly_session _ _
                   (terrainOnly_update (game c) now random))
      as (_ & _ & -> & _).
  - done.
Qed.

Lemma peerBuildings_cons (id : string) (e : Event) (l : list Event) :
  peerBuildings id (e :: l) = peerBuildings id [e] ++ peerBuildings id l.
Proof. unfold peerBuildings. cbn. by case_match. Qed.

(** X14. Between two [world_joined] snapshots the list of buildings only
    grows, at its end, by the buildings that [building_placed] announces for
    other players, in the order of arrival: a building of the local player
    is never added when its placement is confirmed (that event replaces the
    resources and then fails on the missing [cancelPlacement]), and no
    other event touches the list. *)
Theorem buildings_grow_by_peers (c : Client) (events : list Event)
    (id : string) :
  socket (game c) = Some id →
  Forall (fun e => isWorldJoined e = false) events →
  buildings (game (runEvents c events))
  = buildings (game c) ++ peerBuildings id events.
Proof.
  intros Hid Hall. revert c Hid.
  induction Hall as [|e l He _ IH]; intros c Hid.
  - by rewrite app_nil_r.
  - rewrite runEvents_cons, peerBuildings_cons, IH.
    + by rewrite (dispatch_buildings c e id), app_assoc.
    + by destruct (dispatch_frame c e) as (-> & _).
Qed.

Lemma buildings_grow_by_peers_witness :
  buildings
    (game
       (runEvents exampleClient
          [BuildingPlacedEvent
             (mkBuildingPlaced "me" (mkBuilding "Farm" "farm" 1 2)
                (mkResources 1 2 3 4));
           Frame 16 1;
           BuildingPlacedEvent
             (mkBuildingPlaced "peer" (mkBuilding "Temple" "temple" 3 4)
                (mkResources 5 6 7 8))]))
  = buildings (game exampleClient)
    ++ peerBuildings "me"
         [BuildingPlacedEvent
            (mkBuildingPlaced "me" (mkBuilding "Farm" "farm" 1 2)
               (mkResources 1 2 3 4));
          Frame 16 1;
          BuildingPlacedEvent
            (mkBuildingPlaced "peer" (mkBuilding "Temple" "temple" 3 4)
               (mkResources 5 6 7 8))].
Proof.
  apply (buildings_grow_by_peers exampleClient).
  - reflexivity.
  - repeat constructor.
Defined.

(** X15. [building_placed] for the local player stores the resources the
    server sends and then fails, before any notification; for another
    player it appends the building, leaves the resources alone and shows
    the notification.  Without a socket the handler fails at once. *)
Theorem handleBuildingPlaced_own_or_peer (c : Client)
    (data : BuildingPlaced) (id : string) :
  socket (game c) = Some id →
  let r := handleBuildingPlaced c data in
  (bp_playerId data = id →
   resources (game r.1.1) = bp_playerResources data
   ∧ buildings (game r.1.1) = buildings (game c)
   ∧ r.1.2 = [] ∧ r.2 = Throws)
  ∧ (bp_playerId data ≠ id →
     resources (game r.1.1) = resources (game c)
     ∧ buildings (game r.1.1) = buildings (game c) ++ [bp_building data]
     ∧ r.1.2 = [ShowNotification
                  (building_name (bp_building data) +:+ " built!") "success"]
     ∧ r.2 = Returns).
Proof.
  intros Hid. cbn zeta. unfold handleBuildingPlaced. rewrite Hid.
  split; intros Hp.
  - by rewrite bool_decide_eq_true_2.
  - by rewrite bool_decide_eq_false_2.
Qed.

Lemma handleBuildingPlaced_own_or_peer_witness :
  (handleBuildingPlaced exampleClient
     (mkBuildingPlaced "me" (mkBuilding "Farm" "farm" 1 2)
        (mkResources 1 2 3 4))).2
  = Throws.
Proof.
  destruct (handleBuildingPlaced_own_or_peer exampleClient
              (mkBuildingPlaced "me" (mkBuilding "Farm" "farm" 1 2)
                 (mkResources 1 2 3 4))
              "me" eq_refl) as [Hown _].
  destruct (Hown eq_refl) as (_ & _ & _ & Hthrows). exact Hthrows.
Defined.

Lemma assignFirst_ids (l : list Scout) (p : ScoutPatch) :
  scout_id <$> assignFirst l p = scout_id <$> l.
Proof.
  induction l as [|s l IH]; [done|]. cbn [assignFirst].
  destruct (Z.eqb_spec (scout_id s) (patch_id p)) as [E | _].
  - rewrite !fmap_cons. cbn. by rewrite E.
  - by rewrite !fmap_cons, IH.
Qed.

Lemma assignFirst_absent (l : list Scout) (p : ScoutPatch) :
  patch_id p ∉ scout_id <$> l → assignFirst l p = l.
Proof.
  induction l as [|s l IH]; [done|]. rewrite fmap_cons, not_elem_of_cons.
  intros [Hne Hl]. cbn [assignFirst].
  destruct (Z.eqb_spec (scout_id s) (patch_id p)); [congruence|].
  by rewrite IH.
Qed.

(** X16. [scout_sent] never changes how many scouts the player has nor
    their ids: for the local player the patch is applied to the first scout
    with the patch's id only, the scouts before it and after it are kept as
    they are, and a patch whose id no scout has is dropped; for another
    player nothing changes.  The notification is shown in every case. *)
Theorem handleScoutSent_patches_first (g : Game) (playerId id : string)
    (scout : ScoutPatch) :
  socket g = Some id →
  let r := handleScoutSent g playerId scout in
  scout_id <$> scouts r.1.1 = scout_id <$> scouts g
  ∧ (playerId ≠ id ∨ patch_id scout ∉ scout_id <$> scouts g → r.1.1 = g)
  ∧ (playerId = id →
     ∀ before s after,
       scouts g = before ++ s :: after →
       patch_id scout ∉ scout_id <$> before →
       scout_id s = patch_id scout →
       scouts r.1.1 = before ++ assignScout s scout :: after)
  ∧ r.1.2 = [ShowNotification "Scout dispatched!" "success"]
  ∧ r.2 = Returns.
Proof.
  intros Hid. cbn zeta. unfold handleScoutSent. rewrite Hid.
  cbn [fst snd]. split_and!; try done.
  - case_bool_decide; [|done]. destruct g. cbn. apply assignFirst_ids.
  - intros [Hne | Habs].
    + by rewrite bool_decide_eq_false_2.
    + case_bool_decide; [|done]. rewrite assignFirst_absent by done.
      by destruct g.
  - intros -> before s after Hs Hbefore Hsid.
    rewrite bool_decide_eq_true_2 by done.
    replace (scouts (set_scouts (assignFirst (scouts g) scout) g))
      with (assignFirst (scouts g) scout) by (by destruct g).
    rewrite Hs. clear Hs.
    induction before as [|b before IH]; cbn [assignFirst app].
    + by rewrite (proj2 (Z.eqb_eq _ _) Hsid).
    + rewrite fmap_cons, not_elem_of_cons in Hbefore.
      destruct Hbefore as [Hb Hbefore].
      destruct (Z.eqb_spec (scout_id b) (patch_id scout)); [congruence|].
      by rewrite IH.
Qed.

Lemma handleScoutSent_patches_first_witness :
  scout_id
    <$> scouts
          (handleScoutSent
             (set_scouts [mkScout 1 0 0 false None; mkScout 2 5 5 false None;
                          mkScout 2 9 9 false None]
                (onlineGame "me" 800 600))
             "me" (mkScoutPatch 2 (Some 7%Q) None (Some true) None)).1.1
  = [1; 2; 2].
Proof.
  apply (handleScoutSent_patches_first
           (set_scouts [mkScout 1 0 0 false None; mkScout 2 5 5 false None;
                        mkScout 2 9 9 false None]
              (onlineGame "me" 800 600))
           "me" "me" (mkScoutPatch 2 (Some 7%Q) None (Some true) None)).
  reflexivity.
Defined.

(** ** Statistics *)

Lemma countType_app (type : string) (l1 l2 : list Building) :
  countType type (l1 ++ l2) = countType type l1 + countType type l2.
Proof. unfold countType. rewrite filter_app, length_app. lia. Qed.

Lemma countType_nonneg (type : string) (l : list Building) :
  0 ≤ countType type l.
Proof. unfold countType. lia. Qed.

(** X17. The three status bars stay within their range (happiness from 50
    to 100 percent, defense from 0 to 100, prosperity from 30 to 100), a
    new building never lowers any of them, and each is full from four
    temples, five blacksmiths and three trading posts on. *)
Theorem updateStatsDisplay_bounded_monotone (g : Game)
    (more : list Building) :
  let bars := updateStatsDisplay g in
  let bars' := updateStatsDisplay (set_buildings (buildings g ++ more) g) in
  50 ≤ bars.1.1 ≤ 100 ∧ 0 ≤ bars.1.2 ≤ 100 ∧ 30 ≤ bars.2 ≤ 100
  ∧ bars.1.1 ≤ bars'.1.1 ∧ bars.1.2 ≤ bars'.1.2 ∧ bars.2 ≤ bars'.2
  ∧ (bars.1.1 = 100 ↔ 4 ≤ countType "temple" (buildings g))
  ∧ (bars.1.2 = 100 ↔ 5 ≤ countType "blacksmith" (buildings g))
  ∧ (bars.2 = 100 ↔ 3 ≤ countType "tradingpost" (buildings g)).
Proof.
  cbn zeta. unfold updateStatsDisplay. cbn [fst snd].
  replace (buildings (set_buildings (buildings g ++ more) g))
    with (buildings g ++ more) by (by destruct g).
  rewrite !countType_app.
  pose proof (countType_nonneg "temple" (buildings g)).
  pose proof (countType_nonneg "blacksmith" (buildings g)).
  pose proof (countType_nonneg "tradingpost" (buildings g)).
  pose proof (countType_nonneg "temple" more).
  pose proof (countType_nonneg "blacksmith" more).
  pose proof (countType_nonneg "tradingpost" more).
  lia.
Qed.

(** X18. [world_joined] looks around the camera of the snapshot, not the
    camera the client had: every chunk within the load radius of the
    snapshot camera's chunk that is not resident is in the request the
    handler sends.  The saved masks are not in the fog store when the
    handler returns (their images are still loading): the store holds only
    masks it held before.  A snapshot population of 0 keeps the former
    population. *)
Theorem world_joined_loads_around_snapshot (c : Client) (data : WorldJoined)
    (cam : Camera) (x y : Z) :
  connected (game c) = true →
  pd_camera (wj_playerData data) = Some cam →
  let r := handleWorldJoined c data in
  let centre := cameraChunk (set_camera cam (game c)) in
  camera (game r.1.1) = cam
  ∧ (Z.max (Z.abs (x - centre.1)) (Z.abs (y - centre.2))
       ≤ chunkLoadRadius (game c) →
     loadedChunks (game c) !! getChunkKey x y = None →
     ∃ needed, Emit (request_chunks needed) ∈ r.1.2 ∧ (x, y) ∈ needed)
  ∧ (∀ key m, fogOfWar (game r.1.1) !! key = Some m →
       fogOfWar (game c) !! key = Some m)
  ∧ r.2 = default [] (pd_fog_of_war (wj_playerData data))
  ∧ (pd_population (wj_playerData data) = Some 0 →
     population (game r.1.1) = population (game c)).
Proof.
  intros Hconn Hcam. cbn zeta. unfold handleWorldJoined.
  cbn [fst snd game]. rewrite Hcam. cbn [default].
  match goal with
  | |- context [loadNearbyChunks ?g] => set (g1 := g)
  end.
  assert (Hg1 : cameraChunk g1 = cameraChunk (set_camera cam (game c))
                ∧ loadedChunks g1 = loadedChunks (game c)
                ∧ fogOfWar g1 = fogOfWar (game c)
                ∧ chunkLoadRadius g1 = chunkLoadRadius (game c)
                ∧ connected g1 = connected (game c)
                ∧ camera g1 = cam
                ∧ population g1
                  = orNumber (pd_population (wj_playerData data))
                      (population (game c))).
  { subst g1. destruct (game c). by split_and!. }
  destruct Hg1 as (Hcc & Hlc & Hfog & Hr & Hc1 & Hcam1 & Hpop).
  pose proof (terrainOnly_loadNearbyChunks g1) as Ht.
  destruct (terrainOnly_fields _ _ Ht) as (_ & _ & _ & _ & Hcam2 & _).
  destruct (terrainOnly_session _ _ Ht) as (_ & Hpop2 & _).
  split_and!.
  - by rewrite Hcam2.
  - intros Hnear Hmiss.
    assert (Hin : (x, y) ∈ neededChunks g1).
    { apply elem_of_neededChunks. by rewrite Hcc, Hr, Hlc. }
    exists (neededChunks g1). split; [|done].
    apply elem_of_app. left. unfold loadNearbyChunks. cbn [snd].
    rewrite Hc1, Hconn.
    destruct (neededChunks g1) as [|n l]; [by apply not_elem_of_nil in Hin|].
    cbn. apply list_elem_of_singleton. reflexivity.
  - intros key m. unfold loadNearbyChunks. cbn [fst].
    unfold unloadDistantChunks. rewrite unloadChunks_fog.
    case_decide; [done|]. by rewrite Hfog.
  - done.
  - intros Hzero. rewrite Hpop2, Hpop, Hzero. reflexivity.
Qed.

Lemma world_joined_loads_around_snapshot_witness :
  camera
    (game
       (handleWorldJoined exampleClient
          (mkWorldJoined "asgard"
             (mkPlayerData None (Some 0) None None
                (Some (mkCamera 5120 5120 1)) None (Some [savedFullFog]))
             [])).1.1)
  = mkCamera 5120 5120 1.
Proof.
  apply (world_joined_loads_around_snapshot exampleClient
           (mkWorldJoined "asgard"
              (mkPlayerData None (Some 0) None None
                 (Some (mkCamera 5120 5120 1)) None (Some [savedFullFog]))
              [])
           (mkCamera 5120 5120 1) 10 10).
  - reflexivity.
  - reflexivity.
Defined.

(** ** The cache across passes and deliveries *)

Lemma list_bind_ext_in {A B} (f h : A → list B) (l : list A) :
  (∀ x, x ∈ l → f x = h x) → l ≫= f = l ≫= h.
Proof.
  induction l as [|a l IH]; intros Hfh; [done|]. cbn.
  rewrite (Hfh a) by left. rewrite IH; [done|].
  intros x Hx. apply Hfh. by right.
Qed.

Lemma neededChunks_ext (g g' : Game) :
  cameraChunk g' = cameraChunk g → chunkLoadRadius g' = chunkLoadRadius g →
  (∀ x y,
     Z.max (Z.abs (x - (cameraChunk g).1)) (Z.abs (y - (cameraChunk g).2))
       ≤ chunkLoadRadius g →
     is_Some (loadedChunks g' !! getChunkKey x y)
     ↔ is_Some (loadedChunks g !! getChunkKey x y)) →
  neededChunks g' = neededChunks g.
Proof.
  intros Hc Hr Hl. unfold neededChunks. cbn zeta. rewrite Hc, Hr.
  apply list_bind_ext_in. intros x Hx. apply list_bind_ext_in. intros y Hy.
  apply elem_of_fromTo in Hx, Hy.
  assert (Hnear : Z.max (Z.abs (x - (cameraChunk g).1))
                    (Z.abs (y - (cameraChunk g).2)) ≤ chunkLoadRadius g)
    by lia.
  specialize (Hl x y Hnear).
  destruct (bool_decide_reflect
              (is_Some (loadedChunks g' !! getChunkKey x y))),
           (bool_decide_reflect
              (is_Some (loadedChunks g !! getChunkKey x y)));
    tauto.
Qed.

Lemma loadNearbyChunks_resident (g : Game) (key : string) (chunk : Chunk) :
  loadedChunks (loadNearbyChunks g).1 !! key = Some chunk →
  loadedChunks g !! key = Some chunk
  ∧ chunkDistance chunk (cameraChunk g).1 (cameraChunk g).2
    ≤ chunkLoadRadius g + 1.
Proof.
  unfold loadNearbyChunks, unloadDistantChunks. cbn [fst].
  rewrite unloadChunks_loaded. case_decide as Hin; [done|].
  intros Hk. split; [done|].
  destruct (Z.le_gt_cases
              (chunkDistance chunk (cameraChunk g).1 (cameraChunk g).2)
              (chunkLoadRadius g + 1)) as [Hle | Hgt]; [done|].
  exfalso. apply Hin. apply elem_of_chunksToUnload. by exists chunk.
Qed.

Lemma loadNearbyChunks_near (g : Game) (x y : Z) :
  wellKeyed (loadedChunks g) →
  Z.max (Z.abs (x - (cameraChunk g).1)) (Z.abs (y - (cameraChunk g).2))
    ≤ chunkLoadRadius g →
  loadedChunks (loadNearbyChunks g).1 !! getChunkKey x y
  = loadedChunks g !! getChunkKey x y.
Proof.
  intros Hwk Hnear. unfold loadNearbyChunks, unloadDistantChunks. cbn [fst].
  rewrite unloadChunks_loaded. case_decide as Hin; [|done].
  apply elem_of_chunksToUnload in Hin as (chunk & Hk & Hfar).
  apply Hwk in Hk as Hkey. apply getChunkKey_inj in Hkey as [Hx Hy].
  unfold chunkDistance in Hfar. lia.
Qed.

(** X19. After a recompute pass every resident chunk is within the load
    radius plus one of the camera's chunk, and a second pass with nothing
    delivered in between evicts nothing more.  When the chunks are stored
    under the keys of their coordinates the second pass also sends the same
    request again: the client asks for the missing chunks anew on every
    pass until they arrive. *)
Theorem recompute_pass_idempotent (g : Game) :
  wellKeyed (loadedChunks g) →
  let once := loadNearbyChunks g in
  (∀ key chunk, loadedChunks once.1 !! key = Some chunk →
     chunkDistance chunk (cameraChunk g).1 (cameraChunk g).2
       ≤ chunkLoadRadius g + 1)
  ∧ loadNearbyChunks once.1 = once.
Proof.
  intros Hwk. cbn zeta.
  pose proof (terrainOnly_loadNearbyChunks g) as Ht.
  pose proof (terrainOnly_cameraChunk _ _ Ht) as Hcc.
  destruct (terrainOnly_fields _ _ Ht)
    as (_ & _ & _ & _ & _ & _ & _ & Hr & _ & Hconn).
  split.
  - intros key chunk Hk. by apply loadNearbyChunks_resident in Hk as [_ ?].
  - assert (Hnone : chunksToUnload (loadNearbyChunks g).1
                      (cameraChunk g).1 (cameraChunk g).2 = []).
    { apply elem_of_nil_inv. intros key Hin.
      apply elem_of_chunksToUnload in Hin as (chunk & Hk & Hfar).
      apply loadNearbyChunks_resident in Hk as [_ Hle]. lia. }
    assert (Hneeded : neededChunks (loadNearbyChunks g).1 = neededChunks g).
    { apply neededChunks_ext; [done | done |].
      intros x y Hnear. by rewrite loadNearbyChunks_near. }
    unfold loadNearbyChunks at 1. rewrite Hcc, Hneeded, Hconn.
    unfold unloadDistantChunks. cbn zeta. rewrite Hnone. reflexivity.
Qed.

Lemma storeChunk_loaded (g : Game) (entry : string * Chunk) :
  loadedChunks (storeChunk g entry) = <[entry.1 := entry.2]> (loadedChunks g).
Proof. unfold storeChunk. case_bool_decide; by destruct g. Qed.

Lemma storeChunk_wellKeyed (g : Game) (entry : string * Chunk) :
  entry.1 = getChunkKey (chunk_x entry.2) (chunk_y entry.2) →
  fogOfWar (storeChunk g entry)
  = match fogOfWar g !! entry.1 with
    | Some _ => fogOfWar g
    | None => <[entry.1 := freshFog (chunkSize g)]> (fogOfWar g)
    end.
Proof.
  intros Hkey. unfold storeChunk. cbn zeta.
  replace (fogOfWar (set_loadedChunks _ g)) with (fogOfWar g)
    by (by destruct g).
  destruct (fogOfWar g !! entry.1) as [m|] eqn:Hm.
  - rewrite bool_decide_eq_true_2 by done. by destruct g.
  - rewrite bool_decide_eq_false_2 by (by intros [? ?]).
    unfold initializeChunkFogOfWar. rewrite <- Hkey. by destruct g.
Qed.

Lemma terrainConsistent_storeChunk (g : Game) (entry : string * Chunk) :
  entry.1 = getChunkKey (chunk_x entry.2) (chunk_y entry.2) →
  terrainConsistent g → terrainConsistent (storeChunk g entry).
Proof.
  intros Hkey (Hwk & Hfog & Hclip).
  pose proof (storeChunk_loaded g entry) as Hl.
  pose proof (storeChunk_wellKeyed g entry Hkey) as Hf.
  destruct (storeChunk_fog g entry) as (Hsize & _).
  cbn zeta in Hsize. unfold terrainConsistent, chunksHaveFog.
  rewrite Hl, Hf, Hsize. split_and!.
  - intros key chunk Hk. apply lookup_insert_Some in Hk as [[<- <-] | [_ Hk]].
    + done.
    + by apply Hwk.
  - intros key Hk. destruct (decide (entry.1 = key)) as [<- | Hne].
    + destruct (fogOfWar g !! entry.1) eqn:E; [by rewrite E|].
      by rewrite lookup_insert_eq.
    + rewrite lookup_insert_ne in Hk by done. apply Hfog in Hk.
      destruct (fogOfWar g !! entry.1); [done|]. by rewrite lookup_insert_ne.
  - destruct (fogOfWar g !! entry.1); [done|].
    intros key m Hk px py Hout.
    apply lookup_insert_Some in Hk as [[_ <-] | [_ Hk]].
    + unfold freshFog. by rewrite Hout.
    + by apply (Hclip key).
Qed.

Lemma terrainConsistent_handleChunksData (chunks : list (string * Chunk))
    (g : Game) :
  wellKeyedDelivery chunks →
  terrainConsistent g → terrainConsistent (handleChunksData g chunks).
Proof.
  intros Hall. revert g. induction Hall as [|e l He _ IH]; intros g Hg.
  - done.
  - apply IH. by apply terrainConsistent_storeChunk.
Qed.



Lemma restoreFogEntry_keyed (g : Game) (e : SavedFog) :
  getChunkKey (saved_coords e).1 (saved_coords e).2 = saved_key e →
  fogOfWar (restoreFogEntry g e)
  = <[saved_key e := drawSaved (chunkSize g) (saved_image e)]> (fogOfWar g)
  ∧ chunkSize (restoreFogEntry g e) = chunkSize g.
Proof.
  intros Hkey. unfold restoreFogEntry. cbn zeta.
  destruct (fogOfWar g !! saved_key e) as [m|] eqn:Hm.
  - rewrite Hm. by destruct g.
  - unfold initializeChunkFogOfWar. rewrite Hkey.
    replace (fogOfWar (set_fogOfWar _ g))
      with (<[saved_key e := freshFog (chunkSize g)]> (fogOfWar g))
      by (by destruct g).
    rewrite lookup_insert_eq. destruct g. cbn.
    by rewrite insert_insert_eq.
Qed.






Lemma terrainConsistent_empty (g : Game) :
  loadedChunks g = ∅ → fogOfWar g = ∅ → terrainConsistent g.
Proof.
  intros Hl Hf. unfold terrainConsistent, wellKeyed, chunksHaveFog, fogClipped.
  rewrite Hl, Hf. split_and!.
  - intros key chunk Hk. by rewrite lookup_empty in Hk.
  - intros key [? Hk]. by rewrite lookup_empty in Hk.
  - intros key m Hk. by rewrite lookup_empty in Hk.
Qed.


Lemma recompute_pass_idempotent_witness :
  loadNearbyChunks (loadNearbyChunks twoChunkGame).1
  = loadNearbyChunks twoChunkGame.
Proof.
  apply (recompute_pass_idempotent twoChunkGame).
  apply (terrainConsistent_handleChunksData
           [("0,0", mkChunk 0 0 0 0); ("10,10", mkChunk 10 10 5120 5120)]
           (onlineGame "me" 800 600)).
  - repeat constructor.
  - by apply terrainConsistent_empty.
Defined.






(** ** Reveals that draw nothing *)

Lemma tickAnim_nonresident (now : Z) (g : Game) (a : Anim) :
  loadedChunks g !! animKey a = None → (tickAnim now g a).1.1 = g.
Proof.
  intros Hno. unfold tickAnim. cbn zeta. cbn [fst snd].
  replace (getChunkKey (anim_chunkX (set_radius _ a))
             (anim_chunkY (set_radius _ a)))
    with (animKey a) by (by destruct a).
  rewrite Hno. by case_match.
Qed.

Lemma tickLoop_nonresident (now : Z) (l : list Anim) (g : Game)
    (kept : list Anim) :
  Forall (fun a => loadedChunks g !! animKey a = None) l →
  (foldl (tickStep now) (g, kept) l).1 = g.
Proof.
  intros Hall. revert kept. induction Hall as [|a l Ha _ IH]; intros kept.
  - done.
  - cbn [foldl]. unfold tickStep at 2. cbn [fst snd].
    rewrite tickAnim_nonresident by done. apply IH.
Qed.

Lemma runTicks_nonresident (times : list Z) (g : Game) :
  Forall (fun a => loadedChunks g !! animKey a = None) (revealAnimations g) →
  fogOfWar (runTicks g times) = fogOfWar g.
Proof.
  revert g. induction times as [|now times IH]; intros g Hall; [done|].
  unfold runTicks in *. cbn [foldl].
  destruct (updateRevealAnimations_spec g now) as (Hl & _ & _ & Hsame).
  cbn zeta in *. rewrite IH.
  - unfold updateRevealAnimations.
    pose proof (tickLoop_nonresident now (revealAnimations g) g [] Hall)
      as Hloop.
    destruct (foldl (tickStep now) (g, []) (revealAnimations g)) as [g1 k].
    cbn in *. subst g1. by destruct g.
  - rewrite Hl. eapply Forall2_Forall_l; [exact Hsame|].
    apply Forall_forall. intros a Ha a' Hs.
    rewrite (sameReveal_animKey _ _ Hs).
    unfold alive in Ha. apply list_elem_of_filter in Ha as [_ Ha].
    by apply (proj1 (Forall_forall _ _) Hall).
Qed.

(** X23. A reveal for a chunk that is not resident is lost.  Even when the
    chunk's mask exists (a mask restored before its chunk has arrived), the
    animation is registered, its ticks draw nothing for want of the chunk's
    origin, and after 800 ms it is dropped: the fog store is what it was
    and no animation is left to draw once the chunk arrives. *)
Theorem reveal_before_delivery_is_lost (g : Game) (x y radius : Q)
    (start : Z) (elapsed : list Z) :
  revealAnimations g = [] →
  loadedChunks g
    !! getChunkKey (getChunkCoords g x y).1 (getChunkCoords g x y).2 = None →
  completes elapsed →
  let g' := revealAndRun g x y radius start elapsed in
  fogOfWar g' = fogOfWar g ∧ loadedChunks g' = loadedChunks g
  ∧ revealAnimations g' = [].
Proof.
  intros Hnil Hno Hc. cbn zeta.
  destruct (revealAndRun_spec g x y radius start elapsed Hnil Hc)
    as (Hl & _ & _ & Hdone).
  cbn zeta in *. split_and!; [|done|done].
  unfold revealAndRun.
  destruct (revealArea_spec g x y radius start) as (Hf & Hl' & _ & Hanims).
  cbn zeta in *. rewrite runTicks_nonresident; [done|].
  rewrite Hanims, Hnil, Hl'. cbn [app]. unfold newAnims.
  case_match; by repeat constructor.
Qed.

Lemma reveal_before_delivery_is_lost_witness :
  fogOfWar
    (revealAndRun (restoreFogEntry (onlineGame "me" 800 600) savedFullFog)
       100 100 40 0 [16; 400; 816])
  = fogOfWar (restoreFogEntry (onlineGame "me" 800 600) savedFullFog).
Proof.
  apply (reveal_before_delivery_is_lost
           (restoreFogEntry (onlineGame "me" 800 600) savedFullFog)
           100 100 40 0 [16; 400; 816]).
  - reflexivity.
  - vm_compute. reflexivity.
  - unfold completes. apply Exists_cons_tl, Exists_cons_tl, Exists_cons_hd.
    lia.
Defined.

(** ** How far a reveal erases *)

Lemma easeOutQuad_le_1 (t : Q) : (easeOutQuad t <= 1)%Q.
Proof.
  unfold easeOutQuad.
  assert (H : (0 <= (1 - t) * (1 - t))%Q).
  { destruct (Qlt_le_dec (1 - t) 0).
    - assert (E : ((1 - t) * (1 - t) == (- (1 - t)) * (- (1 - t)))%Q)
        by ring.
      rewrite E. apply Qmult_le_0_compat; lra.
    - apply Qmult_le_0_compat; lra. }
  lra.
Qed.

Lemma easeOutQuad_mono (s t : Q) :
  (0 <= s)%Q → (s <= t)%Q → (t <= 1)%Q →
  (0 <= easeOutQuad s)%Q ∧ (easeOutQuad s <= easeOutQuad t)%Q.
Proof. unfold easeOutQuad. intros H0 Hst H1. split; nra. Qed.

Section Outside.
Context (size : Z) (chunks : gmap string Chunk).

Lemma animFactor_outside now (a : Anim) (chunk : Chunk) key px py :
  chunks !! animKey a = Some chunk →
  (0 <= anim_targetRadius a)%Q →
  (anim_targetRadius a * anim_targetRadius a
   < (inject_Z px + (1 # 2) - (anim_x a - chunk_worldX chunk))
     * (inject_Z px + (1 # 2) - (anim_x a - chunk_worldX chunk))
     + (inject_Z py + (1 # 2) - (anim_y a - chunk_worldY chunk))
       * (inject_Z py + (1 # 2) - (anim_y a - chunk_worldY chunk)))%Q →
  (animFactor size chunks now a key px py == 1)%Q.
Proof.
  intros Hchunk Htarget Hout. unfold animFactor.
  case_decide as Hkey; [|reflexivity]. subst key. rewrite Hchunk.
  cbn zeta.
  set (radius := (anim_targetRadius a * easeOutQuad (animProgress now a))%Q).
  destruct (Qltb 0 radius) eqn:Hpos; [|reflexivity].
  destruct (inCanvas size px py); [|reflexivity]. cbn [andb].
  apply Qltb_true in Hpos.
  assert (Hle : (radius <= anim_targetRadius a)%Q).
  { subst radius. pose proof (easeOutQuad_le_1 (animProgress now a)). nra. }
  unfold fillAlpha. cbn zeta.
  match goal with
  | |- context [Qle_bool ?d2 ?r2] => destruct (Qle_bool d2 r2) eqn:Hin
  end.
  - apply Qle_bool_iff in Hin. exfalso. nra.
  - ring.
Qed.

Lemma tickFactor_outside now (anims : list Anim) key px py :
  Forall (fun a => ∀ now, (animFactor size chunks now a key px py == 1)%Q)
    anims →
  (tickFactor size chunks now anims key px py == 1)%Q.
Proof.
  induction 1 as [|a l Ha _ IH]; [reflexivity|].
  rewrite tickFactor_cons, Ha, IH. ring.
Qed.

Lemma runFactor_outside (anims : list Anim) times key px py :
  Forall (fun a => ∀ now, (animFactor size chunks now a key px py == 1)%Q)
    anims →
  (runFactor size chunks anims times key px py == 1)%Q.
Proof.
  revert anims. induction times as [|t ts IH]; intros anims Hall;
    [reflexivity|].
  cbn [runFactor]. rewrite tickFactor_outside by done. rewrite IH; [ring|].
  unfold alive. apply Forall_forall. intros a Ha.
  apply list_elem_of_filter in Ha as [_ Ha].
  by apply (proj1 (Forall_forall _ _) Hall).
Qed.

End Outside.

(** X24. A reveal of radius [radius] (not negative) erases nothing outside
    the disc of that radius around its centre: however the ticks fall, a
    cell of the chunk's mask whose centre lies farther than [radius] from
    the revealed point keeps its opacity. *)
Theorem reveal_confined_to_target_disc (g : Game) (x y radius : Q)
    (start : Z) (elapsed : list Z) (chunk : Chunk) (m : Canvas)
    (px py : Z) :
  revealAnimations g = [] → (0 <= radius)%Q →
  let key := getChunkKey (getChunkCoords g x y).1 (getChunkCoords g x y).2 in
  loadedChunks g !! key = Some chunk →
  fogOfWar g !! key = Some m →
  (radius * radius
   < (inject_Z px + (1 # 2) - (x - chunk_worldX chunk))
     * (inject_Z px + (1 # 2) - (x - chunk_worldX chunk))
     + (inject_Z py + (1 # 2) - (y - chunk_worldY chunk))
       * (inject_Z py + (1 # 2) - (y - chunk_worldY chunk)))%Q →
  ∃ m', fogOfWar (revealAndRun g x y radius start elapsed) !! key = Some m'
        ∧ (m' px py == m px py)%Q.
Proof.
  intros Hnil Hrad key Hchunk Hm Hout. unfold revealAndRun.
  set (cc := getChunkCoords g x y) in *.
  destruct (revealArea_spec g x y radius start) as (Hf & Hl & Hs & Hanims).
  cbn zeta in *. rewrite Hnil in Hanims. cbn [app] in Hanims.
  destruct (runTicks_spec ((fun e => start + e) <$> elapsed)
              (revealArea g x y radius start)
              (newAnims g x y radius start)) as (_ & _ & Hsc & _).
  { rewrite Hanims. apply sameReveal_refl. }
  cbn zeta in Hsc. specialize (Hsc key). rewrite Hf, Hl, Hs in Hsc.
  unfold Canvas in *. rewrite Hm in Hsc.
  match type of Hsc with
  | match ?t with _ => _ end => destruct t as [m'|]; [|done]
  end.
  exists m'. split; [done|]. rewrite Hsc.
  rewrite runFactor_outside; [ring|].
  unfold newAnims. cbn zeta. fold cc. fold key.
  match goal with
  | |- Forall _ (match ?t with _ => _ end) =>
      assert (E : t = Some m) by exact Hm; rewrite E
  end.
  repeat constructor.
  intros now. by apply (animFactor_outside _ _ now _ chunk).
Qed.

Lemma reveal_confined_to_target_disc_witness :
  ∃ m', fogOfWar (revealAndRun foggedGame 100 100 40 0 [16; 400; 816])
          !! "0,0" = Some m'
        ∧ (m' 200%Z 200%Z == freshFog 512 200%Z 200%Z)%Q.
Proof.
  apply (reveal_confined_to_target_disc foggedGame 100 100 40 0
           [16; 400; 816] (mkChunk 0 0 0 0) (freshFog 512) 200 200).
  - reflexivity.
  - vm_compute. discriminate.
  - reflexivity.
  - reflexivity.
  - vm_compute. reflexivity.
Defined.

(** X25. The radius of a reveal grows with time up to its target: for a
    target radius that is not negative, a tick at a later time stores a
    radius at least as large, never above the target; a tick at or after
    the end of the duration stores exactly the target and drops the
    animation, and a tick before it keeps the animation. *)
Theorem reveal_radius_grows (g : Game) (a : Anim) (now1 now2 : Z) :
  0 < anim_duration a → (0 <= anim_targetRadius a)%Q →
  anim_startTime a ≤ now1 → now1 ≤ now2 →
  let r1 := anim_radius (tickAnim now1 g a).1.2 in
  let r2 := anim_radius (tickAnim now2 g a).1.2 in
  (0 <= r1)%Q ∧ (r1 <= r2)%Q ∧ (r2 <= anim_targetRadius a)%Q
  ∧ (anim_startTime a + anim_duration a ≤ now2 →
     (r2 == anim_targetRadius a)%Q ∧ (tickAnim now2 g a).2 = false)
  ∧ (now2 < anim_startTime a + anim_duration a →
     (tickAnim now2 g a).2 = true).
Proof.
  intros Hd Ht H1 H2. cbn zeta. unfold tickAnim. cbn zeta.
  cbn [fst snd anim_radius set_radius]. unfold animProgress.
  set (d := inject_Z (anim_duration a)).
  set (q1 := (inject_Z (now1 - anim_startTime a) / d)%Q).
  set (q2 := (inject_Z (now2 - anim_startTime a) / d)%Q).
  assert (Hdpos : (0 < d)%Q).
  { subst d. rewrite <- (Zlt_Qlt 0). exact Hd. }
  assert (Hq1 : (0 <= q1)%Q).
  { subst q1. apply Qle_shift_div_l; [done|]. rewrite Qmult_0_l.
    rewrite <- (Zle_Qle 0). lia. }
  assert (Hq12 : (q1 <= q2)%Q).
  { subst q1 q2. unfold Qdiv. apply Qmult_le_compat_r.
    - rewrite <- Zle_Qle. lia.
    - apply Qinv_le_0_compat. lra. }
  assert (Hlate : anim_startTime a + anim_duration a ≤ now2 → (1 <= q2)%Q).
  { intros Hl. subst q2. apply Qle_shift_div_l; [done|]. rewrite Qmult_1_l.
    subst d. rewrite <- Zle_Qle. lia. }
  assert (Hearly : now2 < anim_startTime a + anim_duration a → (q2 < 1)%Q).
  { intros Hl. subst q2. apply Qlt_shift_div_r; [done|]. rewrite Qmult_1_l.
    subst d. rewrite <- Zlt_Qlt. lia. }
  set (p1 := Qmin q1 1). set (p2 := Qmin q2 1).
  assert (Hp : (0 <= p1)%Q ∧ (p1 <= p2)%Q ∧ (p2 <= 1)%Q).
  { subst p1 p2.
    destruct (Q.min_spec q1 1) as [[Hc1 E1] | [Hc1 E1]],
             (Q.min_spec q2 1) as [[Hc2 E2] | [Hc2 E2]];
      rewrite E1, E2; split_and!; lra. }
  destruct Hp as (Hp0 & Hp12 & Hp1).
  assert (Hlate' : anim_startTime a + anim_duration a ≤ now2 → (p2 == 1)%Q).
  { intros Hl. apply Hlate in Hl. subst p2.
    destruct (Q.min_spec q2 1) as [[Hc2 E2] | [Hc2 E2]]; [lra | exact E2]. }
  assert (Hearly' : now2 < anim_startTime a + anim_duration a → (p2 < 1)%Q).
  { intros Hl. apply Hearly in Hl. subst p2.
    destruct (Q.min_spec q2 1) as [[Hc2 E2] | [Hc2 E2]]; rewrite E2; lra. }
  destruct (easeOutQuad_mono _ _ Hp0 Hp12 Hp1) as [He0 He12].
  pose proof (easeOutQuad_le_1 p2) as He1.
  split_and!.
  - nra.
  - nra.
  - nra.
  - intros Hl. apply Hlate' in Hl. split.
    + unfold easeOutQuad. rewrite Hl. ring.
    + destruct (Qltb p2 1) eqn:E; [|done].
      apply Qltb_true in E. rewrite Hl in E. lra.
  - intros Hl. apply Qltb_true. by apply Hearly'.
Qed.

Lemma reveal_radius_grows_witness :
  (anim_radius
     (tickAnim 400 foggedGame (mkAnim 100 100 0 40 0 800 0 0)).1.2
   <= anim_radius
        (tickAnim 900 foggedGame (mkAnim 100 100 0 40 0 800 0 0)).1.2)%Q.
Proof.
  apply (reveal_radius_grows foggedGame (mkAnim 100 100 0 40 0 800 0 0)
           400 900).
  - reflexivity.
  - vm_compute. discriminate.
  - cbn. lia.
  - lia.
Defined.

(** ** Persistence *)

Lemma restoreFog_lookup (coords : string → Z * Z)
    (l : list (string * Canvas)) (g0 : Game) (key : string) :
  NoDup l.*1 →
  Forall (fun km => getChunkKey (coords km.1).1 (coords km.1).2 = km.1) l →
  fogOfWar
    (restoreFogOfWarFromServer g0
       ((fun km : string * Canvas => mkSavedFog km.1 (coords km.1) km.2)
          <$> l)) !! key
  = match (list_to_map l : gmap string Canvas) !! key with
    | Some m => Some (drawSaved (chunkSize g0) m)
    | None => fogOfWar g0 !! key
    end.
Proof.
  unfold restoreFogOfWarFromServer. revert g0.
  induction l as [|[k1 m1] l IH]; intros g0 Hnd Hkeys.
  - cbn. by rewrite lookup_empty.
  - rewrite fmap_cons in Hnd. apply NoDup_cons in Hnd as [Hk1 Hnd].
    apply Forall_cons in Hkeys as [Hkey Hkeys]. cbn [fst snd] in *.
    rewrite fmap_cons. cbn [foldl]. rewrite IH by done.
    cbn beta. cbn [fst snd].
    destruct (restoreFogEntry_keyed g0 (mkSavedFog k1 (coords k1) m1) Hkey)
      as [Hf Hs].
    cbn [saved_key saved_image] in Hf. rewrite Hf, Hs.
    cbn [list_to_map foldr]. cbn [fst snd uncurry].
    destruct (decide (k1 = key)) as [<- | Hne].
    + rewrite !lookup_insert_eq.
      by rewrite (not_elem_of_list_to_map_1 _ _ Hk1).
    + by rewrite !lookup_insert_ne.
Qed.

(** X26. Saving and restoring is a round trip.  What a connected client
    sends with [save_fog_of_war] is every mask under its key; when each
    key parses back to the coordinates it was made from, restoring that
    payload into a client with the same chunk size, whose own masks are
    among the saved ones, gives back the saved fog store: the same keys,
    and in every cell the saved opacity. *)
Theorem fog_save_restore_round_trip (g g0 : Game)
    (coords : string → Z * Z) :
  connected g = true →
  (∀ key, is_Some (fogOfWar g !! key) →
     getChunkKey (coords key).1 (coords key).2 = key) →
  chunkSize g0 = chunkSize g →
  (∀ key, is_Some (fogOfWar g0 !! key) → is_Some (fogOfWar g !! key)) →
  fogClipped (chunkSize g) (fogOfWar g) →
  (∃ data,
     saveFogOfWarToServer g = [Emit (save_fog_of_war data)]
     ∧ savedEntries coords g
       = (fun km : string * Canvas => mkSavedFog km.1 (coords km.1) km.2)
           <$> data)
  ∧ fogEquiv
      (fogOfWar (restoreFogOfWarFromServer g0 (savedEntries coords g)))
      (fogOfWar g).
Proof.
  intros Hconn Hkeys Hsize Hsub Hclip. split.
  - exists (map_to_list (fogOfWar g)). unfold saveFogOfWarToServer.
    by rewrite Hconn.
  - intros key. unfold savedEntries. rewrite restoreFog_lookup.
    + rewrite list_to_map_to_list, Hsize.
      destruct (fogOfWar g !! key) as [m|] eqn:Hm.
      * intros px py. unfold drawSaved.
        destruct (inCanvas (chunkSize g) px py) eqn:Hin; [reflexivity|].
        symmetry. by apply (Hclip key).
      * destruct (fogOfWar g0 !! key) as [m0|] eqn:Hm0; [|done].
        destruct (Hsub key) as [m Hm']; [by exists m0 | congruence].
    + apply NoDup_fst_map_to_list.
    + apply Forall_forall. intros [k m] Hin.
      apply elem_of_map_to_list in Hin. apply Hkeys. by exists m.
Qed.

Lemma fog_save_restore_round_trip_witness :
  fogEquiv
    (fogOfWar
       (restoreFogOfWarFromServer (onlineGame "me" 800 600)
          (savedEntries (fun _ => (0, 0)) foggedGame)))
    (fogOfWar foggedGame).
Proof.
  assert (E : fogOfWar foggedGame = <["0,0" := freshFog 512]> ∅)
    by reflexivity.
  apply (fog_save_restore_round_trip foggedGame (onlineGame "me" 800 600)
           (fun _ => (0, 0))).
  - reflexivity.
  - intros key [m Hm]. rewrite E in Hm.
    apply lookup_insert_Some in Hm as [[<- _] | [_ Hm]]; [reflexivity|].
    by rewrite lookup_empty in Hm.
  - reflexivity.
  - intros key [m Hm]. cbn in Hm. by rewrite lookup_empty in Hm.
  - intros key m Hm px py Hout. rewrite E in Hm.
    apply lookup_insert_Some in Hm as [[_ <-] | [_ Hm]].
    + unfold freshFog.
      replace (chunkSize foggedGame) with 512 in Hout by reflexivity.
      by rewrite Hout.
    + by rewrite lookup_empty in Hm.
Defined.

(** X27. When the fog is saved.  [area_explored] sends the masks as they
    were before the event: the reveal it registers has not drawn yet, so
    the payload is the fog store the handler found.  A frame that saves
    does so after its ticks have drawn: the payload is the fog store the
    frame leaves.  A frame whose random draw is not below 0.01 sends no
    save. *)
Theorem fog_save_timing (g : Game) (x y range : Q) (now : Z) (random : Q) :
  connected g = true →
  let explored := handleAreaExplored g x y range now in
  let frame := update g now random in
  fogOfWar explored.1 = fogOfWar g
  ∧ explored.2 = [ShowNotification "Area explored!" "success";
                  Emit (save_fog_of_war (map_to_list (fogOfWar g)))]
  ∧ ((random < 1 # 100)%Q →
     frame.2 = (loadNearbyChunks g).2
               ++ [Emit (save_fog_of_war (map_to_list (fogOfWar frame.1)))])
  ∧ (¬ (random < 1 # 100)%Q → frame.2 = (loadNearbyChunks g).2).
Proof.
  intros Hconn. cbn zeta.
  destruct (revealArea_spec g x y range now) as (Hf & _).
  cbn zeta in Hf.
  destruct (terrainOnly_fields _ _ (terrainOnly_revealArea g x y range now))
    as (_ & _ & _ & _ & _ & _ & _ & _ & _ & Hc1).
  destruct (terrainOnly_fields _ _ (terrainOnly_update g now random))
    as (_ & _ & _ & _ & _ & _ & _ & _ & _ & Hc2).
  split_and!.
  - exact Hf.
  - unfold handleAreaExplored, saveFogOfWarToServer. cbn [fst snd].
    by rewrite Hc1, Hconn, Hf.
  - intros Hlt. apply Qltb_true in Hlt. unfold update in *. cbn [fst snd] in *.
    rewrite Hlt. unfold saveFogOfWarToServer. by rewrite Hc2, Hconn.
  - intros Hge. unfold update. cbn [snd].
    destruct (Qltb random (1 # 100)) eqn:E.
    + by apply Qltb_true in E.
    + by rewrite app_nil_r.
Qed.

Lemma fog_save_timing_witness :
  fogOfWar (handleAreaExplored foggedGame 100 100 40 0).1
  = fogOfWar foggedGame.
Proof.
  apply (fog_save_timing foggedGame 100 100 40 0 0).
  reflexivity.
Defined.
